(** * sequtil: pairwise cluster merging and greedy aggregation

    A shallow embedding of [src/merge.cpp] and [src/util.cpp].

    Conventions of the embedding.
    - The C++ [int] and [char] fields ([col], [ins], [cov], [nuc], [lpos],
      [rpos], [ncontrib], [min_overlap], [min_reads]) are integers of [Z];
      signed overflow is undefined behaviour in C++ and is outside the
      model.  Array indices and loop counters ([xidx], [yidx], [midx],
      [mlen], [overlap]) start at 0 and are only ever incremented: they
      are naturals.
    - [pos_t * data] together with [int len] is a list; [len] is its
      length.
    - [malloc] may fail: every call of [merge_two] receives the outcome of
      its one allocation as a boolean.
    - A store into [merged.data] outside the allocated block is undefined
      behaviour; the model drops the store and raises the ghost flag
      [oob]. *)

From Stdlib Require Import ZArith Ascii Lia.
From Equations Require Import Equations.
From stdpp Require Import base list numbers sorting relations.

Local Open Scope nat_scope.

(** ** util.cpp: the nucleotide code *)

Module util.

(** [char nuc2bits( const char nuc )] *)
Definition nuc2bits (nuc : ascii) : Z :=
  match nuc with
  | "A"%char => 1
  | "C"%char => 2
  | "G"%char => 4
  | "T"%char => 8
  | "M"%char => Z.lor 1 2
  | "R"%char => Z.lor 1 4
  | "W"%char => Z.lor 1 8
  | "S"%char => Z.lor 2 4
  | "Y"%char => Z.lor 2 8
  | "K"%char => Z.lor 4 8
  | "V"%char => Z.lor (Z.lor 1 2) 4
  | "H"%char => Z.lor (Z.lor 1 2) 8
  | "D"%char => Z.lor (Z.lor 1 4) 8
  | "B"%char => Z.lor (Z.lor 2 4) 8
  | _ => Z.lor (Z.lor (Z.lor 1 2) 4) 8
  end%Z.

(** [char bits2nuc( const char bits )]; the case labels are the constant
    expressions [1 | 2], ... of the source, evaluated. *)
Definition bits2nuc (bits : Z) : ascii :=
  match bits with
  | 1 => "A"
  | 2 => "C"
  | 4 => "G"
  | 8 => "T"
  | 3 => "M"
  | 5 => "R"
  | 9 => "W"
  | 6 => "S"
  | 10 => "Y"
  | 12 => "K"
  | 7 => "V"
  | 11 => "H"
  | 13 => "D"
  | 14 => "B"
  | _ => "N"
  end%Z%char.

(** The fifteen IUPAC symbols: the four bases, the ten multi-base
    ambiguity letters, and the wildcard. *)
Definition canonical : list ascii :=
  [ "A"; "C"; "G"; "T";
    "M"; "R"; "W"; "S"; "Y"; "K"; "V"; "H"; "D"; "B";
    "N" ]%char.

End util.

(** ** Data model

    [merge.cpp] includes [args.hpp], [bamfile.hpp] and [merge.hpp], which
    declare [pos_t], [aligned_t], [args_t] and [res_t]; the members below
    are those [merge.cpp] reads and writes. *)

(** Modelled from the spec: the declaration of [pos_t] (its header is
    not among the sources).  One position record: column, insertion
    index, coverage and nucleotide code, all integers. *)
Record pos_t := mk_pos {
  col : Z;
  ins : Z;
  cov : Z;
  nuc : Z
}.

(** Modelled from the spec: the declaration of [aligned_t].  A cluster:
    its position records in order, the leftmost and rightmost column,
    and the number of reads it stands for.  [len] is the length of
    [data]. *)
Record aligned_t := mk_aligned {
  data : list pos_t;
  lpos : Z;
  rpos : Z;
  ncontrib : Z
}.

Definition len (a : aligned_t) : nat := length (data a).

(** Modelled from the spec: the declaration of [args_t]; the four members
    the merger and the aggregator read. *)
Record args_t := mk_args {
  min_overlap : Z;
  min_reads : Z;
  tol_gaps : bool;
  tol_ambigs : bool
}.

(** Modelled from the spec: the declaration of [res_t]; [merge.cpp] names
    these three values. *)
Inductive res_t := SUCCESS | FAILURE | ERROR.

(** [enum cmp_t { LT, GT, EQ }] *)
Inductive cmp_t := LT | GT | EQ.

(** [#define MAX( a, b )] and [#define MIN( a, b )] *)
Definition MAX (a b : Z) : Z := if (a >? b)%Z then a else b.
Definition MIN (a b : Z) : Z := if (a <? b)%Z then a else b.

(** [cmp_t pos_cmp( const pos_t & x, const pos_t & y )] *)
Definition pos_cmp (x y : pos_t) : cmp_t :=
  if (col x >? col y)%Z then GT
  else if (col y >? col x)%Z then LT
  else if (ins x >? ins y)%Z then GT
  else if (ins y <? ins x)%Z then LT
  else EQ.

(** [bool ncontrib_cmp( const aligned_t & x, const aligned_t & y )] *)
Definition ncontrib_cmp (x y : aligned_t) : bool :=
  (ncontrib x >? ncontrib y)%Z.

(** ** merge.cpp: [merge_two] *)

(** The message of each [ABORT( msg )]; in every build the macro returns
    [FAILURE], the message is printed under [DEBUG] only. *)
Inductive abort_msg :=
| insufficient_length
| no_opportunity
| no_gaps_in_ys
| no_gaps_in_xs
| mismatch
| insufficient_overlap
| memory_allocation_error.

(** The locals of the first pass. *)
Record walk_t := mk_walk {
  overlap : nat;
  xidx : nat;
  yidx : nat;
  mlen : nat
}.

(** The test of line 135:
    [x.nuc == y.nuc || ( args.tol_ambigs && x.nuc & y.nuc )]. *)
Definition compatible (args : args_t) (x y : pos_t) : bool :=
  (nuc x =? nuc y)%Z || (tol_ambigs args && negb (Z.land (nuc x) (nuc y) =? 0)%Z).

(** The overhang loop of lines 99-102; [y] is [ys.data[ yidx ]], whose
    index does not move in this loop.  [data xs !! (xidx + 1)] is [Some]
    exactly when [xidx + 1 < xs.len]. *)
Equations? skip_xs (xs : aligned_t) (y : pos_t) (cmp : cmp_t) (xidx : nat)
  : cmp_t * nat by wf (len xs - xidx) lt :=
  skip_xs xs y LT xidx with Logic.inspect (data xs !! (xidx + 1)) := {
    | exist _ (Some x) Hx => skip_xs xs y (pos_cmp x y) (xidx + 1)
    | exist _ None _ => (LT, xidx) };
  skip_xs xs y cmp xidx := (cmp, xidx).
Proof. apply lookup_lt_Some in Hx. unfold len. lia. Qed.

(** The overhang loop of lines 110-113; [x] is [xs.data[ xidx ]]. *)
Equations? skip_ys (ys : aligned_t) (x : pos_t) (cmp : cmp_t) (yidx : nat)
  : cmp_t * nat by wf (len ys - yidx) lt :=
  skip_ys ys x GT yidx with Logic.inspect (data ys !! (yidx + 1)) := {
    | exist _ (Some y) Hy => skip_ys ys x (pos_cmp x y) (yidx + 1)
    | exist _ None _ => (GT, yidx) };
  skip_ys ys x cmp yidx := (cmp, yidx).
Proof. apply lookup_lt_Some in Hy. unfold len. lia. Qed.

(** Lines 92-119: "disregard overhangs".  [x0] and [y0] are
    [xs.data[ 0 ]] and [ys.data[ 0 ]]. *)
Definition overhang (xs ys : aligned_t) (args : args_t) (x0 y0 : pos_t)
  : abort_msg + walk_t :=
  match pos_cmp x0 y0 with
  | LT =>
      let '(cmp, i) := skip_xs xs y0 LT 0 in
      match cmp with
      | GT => if negb (tol_gaps args) then inl no_gaps_in_ys
              else inr (mk_walk 0 i 0 (0 + i))
      | _ => inr (mk_walk 0 i 0 (0 + i))
      end
  | GT =>
      let '(cmp, j) := skip_ys ys x0 GT 0 in
      match cmp with
      | GT => if negb (tol_gaps args) then inl no_gaps_in_xs
              else inr (mk_walk 0 0 j (0 + j))
      | _ => inr (mk_walk 0 0 j (0 + j))
      end
  | EQ => inr (mk_walk 0 0 0 0)
  end.

(** One iteration of the loop of lines 122-144, [++mlen] included.  The
    two lookups are [Some] exactly when [xidx < xs.len && yidx < ys.len]. *)
Inductive step_t :=
| Next (st : walk_t)      (* the body ran to its end *)
| Exit                    (* the loop condition is false *)
| Abort (msg : abort_msg) (* the body returned *).

Definition walk_step (xs ys : aligned_t) (args : args_t) (st : walk_t) : step_t :=
  match data xs !! xidx st, data ys !! yidx st with
  | Some x, Some y =>
      match pos_cmp x y with
      | LT =>
          if negb (tol_gaps args) then Abort no_gaps_in_xs
          else Next (mk_walk (overlap st) (xidx st + 1) (yidx st) (mlen st + 1))
      | GT =>
          if negb (tol_gaps args) then Abort no_gaps_in_ys
          else Next (mk_walk (overlap st) (xidx st) (yidx st + 1) (mlen st + 1))
      | EQ =>
          if compatible args x y
          then Next (mk_walk (overlap st + 1) (xidx st + 1) (yidx st + 1) (mlen st + 1))
          else Abort mismatch
      end
  | _, _ => Exit
  end.

(** What is left of both arrays; every iteration consumes some of it. *)
Definition walk_left (xs ys : aligned_t) (st : walk_t) : nat :=
  (len xs - xidx st) + (len ys - yidx st).

Lemma walk_step_left xs ys args st st' :
  walk_step xs ys args st = Next st' -> walk_left xs ys st' < walk_left xs ys st.
Proof.
  unfold walk_step, walk_left, len.
  destruct (data xs !! xidx st) as [x|] eqn:Hx; [|discriminate].
  destruct (data ys !! yidx st) as [y|] eqn:Hy; [|discriminate].
  apply lookup_lt_Some in Hx, Hy.
  destruct (pos_cmp x y);
    repeat match goal with |- context [if ?b then _ else _] => destruct b end;
    intros [= <-]; simpl; lia.
Qed.

(** The loop of lines 122-144: the locals at its exit, or the message it
    aborted with. *)
Equations? walk (xs ys : aligned_t) (args : args_t) (st : walk_t)
  : abort_msg + walk_t by wf (walk_left xs ys st) lt :=
  walk xs ys args st with Logic.inspect (walk_step xs ys args st) := {
    | exist _ (Next st') Hs => walk xs ys args st'
    | exist _ Exit _ => inr st
    | exist _ (Abort msg) _ => inl msg }.
Proof. eapply walk_step_left; eassumption. Qed.

(** The locals of the second pass: the two read indices, the write index
    [midx], the block [merged.data] points to, and the ghost flag raised
    by a store outside the block. *)
Record fill_t := mk_fill {
  fx : nat;
  fy : nat;
  midx : nat;
  mdata : list pos_t;
  oob : bool
}.

(** The contents of a cell [malloc] returned and nothing was stored to. *)
Definition uninit : pos_t := mk_pos 0 0 0 0.

(** [malloc( n * sizeof( pos_t ) )]: a block of [n] cells, or [NULL]. *)
Definition malloc (n : nat) (alloc_ok : bool) : option (list pos_t) :=
  if alloc_ok then Some (replicate n uninit) else None.

(** [merged.data[ midx++ ] = v], with the read indices moved to [i], [j]. *)
Definition store (v : pos_t) (i j : nat) (st : fill_t) : fill_t :=
  mk_fill i j (midx st + 1) (<[midx st := v]> (mdata st))
          (oob st || (length (mdata st) <=? midx st)).

(** The record stored for coinciding positions (lines 171-173). *)
Definition combine (x y : pos_t) : pos_t :=
  mk_pos (col x) (ins x) (cov x + cov y) (MIN (nuc x) (nuc y)).

(** One iteration of the loop of lines 164-178; [None] when the loop
    condition is false. *)
Definition fill_step (xs ys : aligned_t) (st : fill_t) : option fill_t :=
  match data xs !! fx st, data ys !! fy st with
  | Some x, Some y =>
      match pos_cmp x y with
      | LT => Some (store x (fx st + 1) (fy st) st)
      | GT => Some (store y (fx st) (fy st + 1) st)
      | EQ => Some (store (combine x y) (fx st + 1) (fy st + 1) st)
      end
  | _, _ => None
  end.

Definition fill_left (xs ys : aligned_t) (st : fill_t) : nat :=
  (len xs - fx st) + (len ys - fy st).

Lemma fill_step_left xs ys st st' :
  fill_step xs ys st = Some st' -> fill_left xs ys st' < fill_left xs ys st.
Proof.
  unfold fill_step, fill_left, len.
  destruct (data xs !! fx st) as [x|] eqn:Hx; [|discriminate].
  destruct (data ys !! fy st) as [y|] eqn:Hy; [|discriminate].
  apply lookup_lt_Some in Hx, Hy.
  destruct (pos_cmp x y); intros [= <-]; simpl; lia.
Qed.

(** The loop of lines 164-178. *)
Equations? fill_both (xs ys : aligned_t) (st : fill_t) : fill_t
  by wf (fill_left xs ys st) lt :=
  fill_both xs ys st with Logic.inspect (fill_step xs ys st) := {
    | exist _ (Some st') Hs => fill_both xs ys st'
    | exist _ None _ => st }.
Proof. eapply fill_step_left; eassumption. Qed.

(** The loop of lines 181-182. *)
Equations? copy_xs (xs : aligned_t) (st : fill_t) : fill_t
  by wf (len xs - fx st) lt :=
  copy_xs xs st with Logic.inspect (data xs !! fx st) := {
    | exist _ (Some x) Hx => copy_xs xs (store x (fx st + 1) (fy st) st)
    | exist _ None _ => st }.
Proof. apply lookup_lt_Some in Hx. unfold len. simpl. lia. Qed.

(** The loop of lines 184-185. *)
Equations? copy_ys (ys : aligned_t) (st : fill_t) : fill_t
  by wf (len ys - fy st) lt :=
  copy_ys ys st with Logic.inspect (data ys !! fy st) := {
    | exist _ (Some y) Hy => copy_ys ys (store y (fx st) (fy st + 1) st)
    | exist _ None _ => st }.
Proof. apply lookup_lt_Some in Hy. unfold len. simpl. lia. Qed.

(** Lines 164-185: the construction of [merged.data] in the block [blk]. *)
Definition fill (xs ys : aligned_t) (blk : list pos_t) : fill_t :=
  let st := fill_both xs ys (mk_fill 0 0 0 blk false) in
  if fx st <? len xs then copy_xs xs st
  else if fy st <? len ys then copy_ys ys st
  else st.

(** Lines 150-153: the remainder added to [mlen]. *)
Definition final_mlen (xs ys : aligned_t) (st : walk_t) : nat :=
  if xidx st <? len xs then mlen st + (len xs - xidx st)
  else if yidx st <? len ys then mlen st + (len ys - yidx st)
  else mlen st.

(** The messages of lines 188-191. *)
Inductive diag_msg := failed_to_fill | overfilled.

Definition diagnostic (midx mlen : nat) : option diag_msg :=
  if midx <? mlen then Some failed_to_fill
  else if mlen <? midx then Some overfilled
  else None.

(** What a successful run leaves in its locals. *)
Record trace_t := mk_trace {
  t_overlap : nat;
  t_mlen : nat;
  t_midx : nat;
  t_oob : bool
}.

(** The outcome of [merge_two]: [SUCCESS] with the cluster written to
    [merged], or an [ABORT].  No path of the source returns [ERROR]. *)
Inductive outcome :=
| Success (merged : aligned_t) (t : trace_t)
| Failure (msg : abort_msg).

Definition res_of (o : outcome) : res_t :=
  match o with
  | Success _ _ => SUCCESS
  | Failure _ => FAILURE
  end.

(** [res_t merge_two( xs, ys, args, merged )]; [alloc_ok] tells whether the
    [malloc] of line 156 returns a block. *)
Definition merge_two (xs ys : aligned_t) (args : args_t) (alloc_ok : bool)
  : outcome :=
  match data xs !! 0, data ys !! 0 with
  | Some x0, Some y0 =>
      if (rpos xs <? lpos ys + min_overlap args)%Z
         && (rpos ys <? lpos xs + min_overlap args)%Z
      then Failure no_opportunity
      else
        match overhang xs ys args x0 y0 with
        | inl msg => Failure msg
        | inr st0 =>
            match walk xs ys args st0 with
            | inl msg => Failure msg
            | inr st =>
                if (Z.of_nat (overlap st) <? min_overlap args)%Z
                then Failure insufficient_overlap
                else
                  let n := final_mlen xs ys st in
                  match malloc n alloc_ok with
                  | None => Failure memory_allocation_error
                  | Some blk =>
                      let f := fill xs ys blk in
                      Success
                        (mk_aligned (mdata f)
                                    (MIN (lpos xs) (lpos ys))
                                    (MAX (rpos xs) (rpos ys))
                                    (ncontrib xs + ncontrib ys))
                        (mk_trace (overlap st) n (midx f) (oob f))
                  end
            end
        end
  | _, _ => Failure insufficient_length
  end.

(** ** merge.cpp: [merge_clusters] *)

(** [std::sort( clusters.begin(), clusters.end(), ncontrib_cmp )] is not
    a stable sort: the standard fixes the result up to the order of
    clusters with the same [ncontrib].  Any function with these two
    properties may stand for it. *)
Class Sorter := {
  sort : list aligned_t -> list aligned_t;
  sort_perm : forall l, sort l ≡ₚ l;
  sort_sorted : forall l i j x y,
    sort l !! i = Some x -> sort l !! j = Some y -> i < j ->
    ncontrib_cmp y x = false
}.

(** The state [merge_clusters] works on: the vector, the two locals, and
    three ghost counters (calls of [merge_two], successful merges, runs
    of the body of the [do] loop). *)
Record agg_t := mk_agg {
  clusters : list aligned_t;
  nclusters : Z;
  repeat : bool;
  calls : nat;
  merges : nat;
  passes : nat
}.

(** [void aligned_destroy( aligned_t & read )]: the array is freed, which
    leaves no records and length 0. *)
Definition aligned_destroy (read : aligned_t) : aligned_t :=
  mk_aligned [] (lpos read) (rpos read) (ncontrib read).

(** How a loop is left: by its condition, or by a [return]. *)
Inductive flow :=
| Fall (s : agg_t)
| Return (v : Z) (s : agg_t).

Section Aggregation.

(** [merge k a b] is the [k]-th call [merge_two( *a, *b, args, merged )]:
    its result and what it left in [merged]. *)
Variable merge : nat -> aligned_t -> aligned_t -> res_t * aligned_t.
Context {sorter : Sorter}.
Variable args : args_t.

(** The loop of lines 215-230 with its [goto begin]; [i] and [j] are the
    positions of the iterators [a] and [b].  On [SUCCESS] both clusters
    are destroyed in place, [*a] is overwritten with [merged] and [b] is
    erased (lines 219-223); the progress line of line 224 is only
    printed.  [None]: out of fuel (or [a] dereferenced past the end,
    which the [for] of line 213 excludes). *)
Fixpoint scan (fuel i j : nat) (s : agg_t) : option flow :=
  match fuel with
  | 0 => None
  | S fuel =>
      match clusters s !! j with
      | None => Some (Fall s)
      | Some b =>
          match clusters s !! i with
          | None => None
          | Some a =>
              match merge (calls s) a b with
              | (SUCCESS, merged) =>
                  scan fuel i (i + 1)
                       (mk_agg (delete j
                                  (<[i := merged]>
                                     (<[j := aligned_destroy b]>
                                        (<[i := aligned_destroy a]>
                                           (clusters s)))))
                               (nclusters s) true
                               (calls s + 1) (merges s + 1) (passes s))
              | (ERROR, _) =>
                  Some (Return (-1)
                          (mk_agg (clusters s) (nclusters s) (repeat s)
                                  (calls s + 1) (merges s) (passes s)))
              | (FAILURE, _) =>
                  scan fuel i (j + 1)
                       (mk_agg (clusters s) (nclusters s) (repeat s)
                               (calls s + 1) (merges s) (passes s))
              end
          end
      end
  end.

(** Lines 231-232. *)
Definition count (a : aligned_t) (s : agg_t) : agg_t :=
  if (ncontrib a >=? min_reads args)%Z
  then mk_agg (clusters s) (nclusters s + 1) (repeat s)
              (calls s) (merges s) (passes s)
  else s.

(** The loop of lines 213-233, entered with [a] at position [i]. *)
Fixpoint pass (fuel i : nat) (s : agg_t) : option flow :=
  match fuel with
  | 0 => None
  | S fuel =>
      match clusters s !! i with
      | None => Some (Fall s)
      | Some _ =>
          match scan fuel i (i + 1) s with
          | None => None
          | Some (Return v s') => Some (Return v s')
          | Some (Fall s') =>
              match clusters s' !! i with
              | None => None
              | Some a => pass fuel (i + 1) (count a s')
              end
          end
      end
  end.

(** The [do ... while ( repeat )] of lines 208-234, and line 236. *)
Fixpoint outer (fuel : nat) (s : agg_t) : option (Z * agg_t) :=
  match fuel with
  | 0 => None
  | S fuel =>
      match pass fuel 0
                 (mk_agg (sort (clusters s)) 0 false
                         (calls s) (merges s) (passes s + 1)) with
      | None => None
      | Some (Return v s') => Some (v, s')
      | Some (Fall s') =>
          if repeat s' then outer fuel s' else Some (nclusters s', s')
      end
  end.

(** [int merge_clusters( nread, args, clusters )]: the value returned
    and the final state.  [nread] is only printed. *)
Definition merge_clusters_with (fuel : nat) (cs : list aligned_t)
  : option (Z * agg_t) :=
  outer fuel (mk_agg cs 0 false 0 0 0).

(** Fuel that is always enough for a vector of [n] clusters. *)
Definition enough (n : nat) : nat := (n + 1) * (n + 1) + 2.

End Aggregation.

(** [aligned_t merged = { .data = NULL }]: the other members are
    zero-initialised. *)
Definition merged_init : aligned_t := mk_aligned [] 0 0 0.

(** The call of line 217, as [merge_clusters] sees it.  ([merged] is only
    read after [SUCCESS].) *)
Definition merge_two_call (args : args_t) (a b : aligned_t) (alloc_ok : bool)
  : res_t * aligned_t :=
  match merge_two a b args alloc_ok with
  | Success merged _ => (SUCCESS, merged)
  | Failure _ => (FAILURE, merged_init)
  end.

(** [merge_clusters], with [alloc k] the outcome of the allocation in the
    [k]-th call of [merge_two]. *)
Definition merge_clusters `{Sorter} (alloc : nat -> bool) (args : args_t)
  (fuel : nat) (cs : list aligned_t) : option (Z * agg_t) :=
  merge_clusters_with (fun k a b => merge_two_call args a b (alloc k))
                      args fuel cs.

(** A sort that meets [Sorter]: merge sort, larger [ncontrib] first. *)
Definition more_reads (x y : aligned_t) : Prop := (ncontrib y <= ncontrib x)%Z.

#[local] Instance more_reads_dec x y : Decision (more_reads x y).
Proof. unfold more_reads. apply _. Defined.

Definition sort_desc (l : list aligned_t) : list aligned_t :=
  merge_sort more_reads l.

#[local] Instance more_reads_trans : Transitive more_reads.
Proof. unfold more_reads. intros x y z. lia. Qed.

#[local] Instance more_reads_total : Total more_reads.
Proof. unfold more_reads. intros x y. lia. Qed.

Lemma StronglySorted_lookup {A} (R : relation A) (l : list A) :
  StronglySorted R l ->
  forall i j x y, l !! i = Some x -> l !! j = Some y -> i < j -> R x y.
Proof.
  induction 1 as [|a l Hs IH Hall]; intros i j x y Hi Hj Hlt.
  - discriminate.
  - destruct j as [|j]; [lia|]. simpl in Hj.
    destruct i as [|i]; simpl in Hi.
    + injection Hi as <-. rewrite Forall_forall in Hall.
      eapply Hall, list_elem_of_lookup_2, Hj.
    + eapply IH; eauto. lia.
Qed.

#[export] Instance sort_desc_sorter : Sorter.
Proof.
  refine {| sort := sort_desc |}.
  - intros l. apply merge_sort_Permutation.
  - intros l i j x y Hi Hj Hlt. unfold ncontrib_cmp.
    pose proof (StronglySorted_lookup more_reads _
                  (StronglySorted_merge_sort more_reads l) i j x y Hi Hj Hlt) as H.
    unfold more_reads in H. destruct (Z.gtb_spec (ncontrib y) (ncontrib x)); lia.
Defined.

(** ** Vocabulary of the properties *)

(** The first pass at [w] and the second at [f] stand at the same cells
    and have counted the same number of records. *)
Definition aligned (w : walk_t) (f : fill_t) : Prop :=
  xidx w = fx f /\ yidx w = fy f /\ mlen w = midx f.

(** The ghost flag is up exactly when the write index has gone past
    the end of the block; the block keeps its size. *)
Definition fill_ok (blk : list pos_t) (st : fill_t) : Prop :=
  length (mdata st) = length blk /\
  oob st = (length blk <? midx st).

(** The measure of C3, in the claim's words: the compatible overlapping
    positions of two clusters.  [shares args ys x]: the position of [x],
    its column and its insertion index, is present in [ys] with a
    compatible code; [max_overlap] counts the records of [xs] of which
    this holds, the most a merge can count. *)
Definition shares (args : args_t) (ys : list pos_t) (x : pos_t) : bool :=
  existsb (fun y => (col x =? col y)%Z && (ins x =? ins y)%Z
                    && compatible args x y) ys.

Fixpoint max_overlap (args : args_t) (xs ys : list pos_t) : nat :=
  match xs with
  | [] => 0
  | x :: xs' =>
      if shares args ys x then S (max_overlap args xs' ys)
      else max_overlap args xs' ys
  end.

(** No record of [xs] stands at the column of a record of [ys] that has
    a larger insertion index.  These are the pairs of records of two
    positions for which [pos_cmp] answers [EQ] (line 35); what
    [merge_two] does with them is left to the properties of [pos_cmp]. *)
Definition tie_free (xs ys : list pos_t) : bool :=
  forallb (fun x =>
             forallb (fun y => negb (col x =? col y)%Z || (ins y <=? ins x)%Z)
                     ys) xs.


(** [w] is a state the loop of lines 122-144 comes by when [merge_two]
    runs on [xs] and [ys]. *)
Definition in_walk (xs ys : aligned_t) (args : args_t) (w : walk_t) : Prop :=
  exists x0 y0 w0,
    data xs !! 0 = Some x0 /\ data ys !! 0 = Some y0 /\
    ((rpos xs <? lpos ys + min_overlap args)%Z
     && (rpos ys <? lpos xs + min_overlap args)%Z) = false /\
    overhang xs ys args x0 y0 = inr w0 /\
    rtc (fun w1 w2 => walk_step xs ys args w1 = Next w2) w0 w.

(** The state a loop was left with. *)
Definition state_of (r : flow) : agg_t :=
  match r with
  | Fall s => s
  | Return _ s => s
  end.

(** What every stretch of [merge_clusters] without a sort does to the
    state: each merge takes one cluster out of the vector, [repeat] is
    set by a merge and by nothing else. *)
Definition evolves (s s' : agg_t) : Prop :=
  length (clusters s') + merges s' = length (clusters s) + merges s /\
  passes s' = passes s /\
  ((repeat s' = repeat s /\ merges s' = merges s) \/
   (repeat s' = true /\ merges s < merges s')).

(** The only [return] inside the loops is that of line 229. *)
Definition returns_error
  (merge : nat -> aligned_t -> aligned_t -> res_t * aligned_t) (r : flow)
  : Prop :=
  match r with
  | Fall _ => True
  | Return v _ => v = (-1)%Z /\ exists k a b m, merge k a b = (ERROR, m)
  end.

(** What a run of the [do] loop ends with. *)
Definition outer_post
  (merge : nat -> aligned_t -> aligned_t -> res_t * aligned_t)
  (s : agg_t) (v : Z) (s' : agg_t) : Prop :=
  length (clusters s') + merges s' = length (clusters s) + merges s /\
  merges s <= merges s' /\
  passes s < passes s' /\
  passes s' <= passes s + (merges s' - merges s) + 1 /\
  ((0 <= v)%Z \/ (v = (-1)%Z /\ exists k a b m, merge k a b = (ERROR, m))).

(** ** Concrete clusters *)

(** Three columns read A, C, G by one read; the same columns read T, T, T
    by another. *)
Definition acg : aligned_t :=
  mk_aligned [mk_pos 10 0 1 1; mk_pos 11 0 1 2; mk_pos 12 0 1 4] 10 12 1.
Definition ttt : aligned_t :=
  mk_aligned [mk_pos 10 0 1 8; mk_pos 11 0 1 8; mk_pos 12 0 1 8] 10 12 1.

(** A read that shares only column 12 with [acg]. *)
Definition g_only : aligned_t :=
  mk_aligned [mk_pos 12 0 1 4; mk_pos 13 0 1 1] 12 13 1.

(** One column read M (A or C) and read A. *)
Definition read_M : aligned_t := mk_aligned [mk_pos 7 0 1 3] 7 8 1.
Definition read_A : aligned_t := mk_aligned [mk_pos 7 0 1 1] 7 8 1.

(** A cluster with an insertion after column 5, and a read that starts on
    that insertion. *)
Definition with_ins : aligned_t :=
  mk_aligned [mk_pos 4 0 10 1; mk_pos 5 0 20 1; mk_pos 5 1 30 1] 4 5 1.
Definition from_ins : aligned_t :=
  mk_aligned [mk_pos 5 1 1 1] 5 5 1.

(** [with_ins] without its insertion. *)
Definition before_ins : aligned_t :=
  mk_aligned [mk_pos 4 0 10 1; mk_pos 5 0 20 1] 4 5 1.

(** [acg] without its middle column. *)
Definition a_g : aligned_t :=
  mk_aligned [mk_pos 10 0 1 1; mk_pos 12 0 1 4] 10 12 1.

Definition strict (min_ov : Z) : args_t := mk_args min_ov 2 false false.
Definition lenient (min_ov : Z) : args_t := mk_args min_ov 2 true true.

(** What merging [acg] with itself gives, once and twice. *)
Definition acg2 : aligned_t :=
  mk_aligned [mk_pos 10 0 2 1; mk_pos 11 0 2 2; mk_pos 12 0 2 4] 10 12 2.
Definition acg3 : aligned_t :=
  mk_aligned [mk_pos 10 0 3 1; mk_pos 11 0 3 2; mk_pos 12 0 3 4] 10 12 3.

(** ** Vocabulary of the further properties *)

(** Lines 164-185 on lists: what the construction emits, record by
    record, for the records not yet read of the two arrays. *)
Fixpoint merged_records (xs ys : list pos_t) : list pos_t :=
  match xs with
  | [] => ys
  | x :: xs' =>
      (fix inner (ys : list pos_t) : list pos_t :=
         match ys with
         | [] => x :: xs'
         | y :: ys' =>
             match pos_cmp x y with
             | LT => x :: merged_records xs' ys
             | GT => y :: inner ys'
             | EQ => combine x y :: merged_records xs' ys'
             end
         end) ys
  end.

(** The order of positions: by column, then by insertion index. *)
Definition key_lt (x y : pos_t) : Prop :=
  (col x < col y \/ (col x = col y /\ ins x < ins y))%Z.

(** The records of a cluster in strictly ascending order of position. *)
Definition ascending (l : list pos_t) : Prop := Sorted key_lt l.

(** The sum of the coverages of a list of records. *)
Definition total_cov (l : list pos_t) : Z :=
  foldr (fun p acc => (cov p + acc)%Z) 0%Z l.

(** The end of the second pass, from the state the loop of lines 164-178
    was left with (lines 180-185). *)
Definition finish (xs ys : aligned_t) (st : fill_t) : fill_t :=
  if fx st <? len xs then copy_xs xs st
  else if fy st <? len ys then copy_ys ys st
  else st.

(** The columns of the records lie between the two bounds. *)
Definition within (a : aligned_t) : Prop :=
  Forall (fun p => (lpos a <= col p <= rpos a)%Z) (data a).

(** A cluster as [merge_two] expects it: some records, in ascending order
    of position, their columns between the bounds, at least one read. *)
Definition well_formed (a : aligned_t) : Prop :=
  data a <> [] /\ ascending (data a) /\ within a /\ (1 <= ncontrib a)%Z.

(** The same position. *)
Definition same_key (x y : pos_t) : Prop := col x = col y /\ ins x = ins y.

(** A record with its coverage counted twice. *)
Definition double (x : pos_t) : pos_t :=
  mk_pos (col x) (ins x) (cov x + cov x) (nuc x).

(** How a vector of clusters can change in [merge_clusters]: it is
    reordered (line 211), or two of its clusters, [a] before [b], for
    which the merger answered [SUCCESS] give way to the merged cluster
    in the place of [a] (lines 218-223). *)
Inductive consolidates
  (merge : nat -> aligned_t -> aligned_t -> res_t * aligned_t)
  : list aligned_t -> list aligned_t -> Prop :=
| consolidates_refl cs : consolidates merge cs cs
| consolidates_perm cs cs' cs'' :
    cs ≡ₚ cs' -> consolidates merge cs' cs'' -> consolidates merge cs cs''
| consolidates_merge l1 a l2 b l3 k m cs'' :
    merge k a b = (SUCCESS, m) ->
    consolidates merge (l1 ++ m :: l2 ++ l3) cs'' ->
    consolidates merge (l1 ++ a :: l2 ++ b :: l3) cs''.

(** The reads and the coverage a vector of clusters stands for. *)
Definition total_reads (cs : list aligned_t) : Z :=
  foldr (fun a acc => (ncontrib a + acc)%Z) 0%Z cs.

Definition total_coverage (cs : list aligned_t) : Z :=
  foldr (fun a acc => (total_cov (data a) + acc)%Z) 0%Z cs.

(** The clusters of a vector with [min_reads] reads or more. *)
Definition supported (args : args_t) (cs : list aligned_t) : Z :=
  foldr (fun a acc => if (ncontrib a >=? min_reads args)%Z
                      then (acc + 1)%Z else acc) 0%Z cs.

(** What a loop left by line 229 returns. *)
Definition error_reported
  (merge : nat -> aligned_t -> aligned_t -> res_t * aligned_t) (v : Z) : Prop :=
  v = (-1)%Z /\ exists k a b m, merge k a b = (ERROR, m).

(** The calls of a pass in which nothing merges, over a vector of [n]
    clusters: the loop of line 215 makes [n - 1 - a] calls for the cluster
    at position [a], so [pairs_before n i] calls come before those of
    position [i], the pair of positions [i < j] is tried at call
    [call_of n i j] of the pass, and the pass makes [pairs n] calls. *)
Fixpoint pairs_before (n i : nat) : nat :=
  match i with
  | 0 => 0
  | S i' => pairs_before n i' + (n - 1 - i')
  end.

Definition call_of (n i j : nat) : nat := pairs_before n i + (j - (i + 1)).

Definition pairs (n : nat) : nat := pairs_before n n.

(** The number of calls made before the last pass, when nothing merged
    in that pass. *)
Definition last_pass (s : agg_t) : nat :=
  calls s - pairs (length (clusters s)).

(** In a pass that started at call [c0], every cluster from position [i]
    on was tried against every later one, and the merger answered
    [FAILURE]. *)
Definition stable_from
  (merge : nat -> aligned_t -> aligned_t -> res_t * aligned_t)
  (c0 i : nat) (cs : list aligned_t) : Prop :=
  forall ia ib a b,
    i <= ia -> ia < ib -> cs !! ia = Some a -> cs !! ib = Some b ->
    (merge (c0 + call_of (length cs) ia ib) a b).1 = FAILURE.

(** How the [do] loop ends when not by the [return] of line 229: after a
    pass in which nothing merged. *)
Definition settled `{Sorter}
  (merge : nat -> aligned_t -> aligned_t -> res_t * aligned_t)
  (args : args_t) (v : Z) (s : agg_t) : Prop :=
  repeat s = false /\
  v = supported args (clusters s) /\
  (exists cs0, clusters s = sort cs0) /\
  exists c0, calls s = c0 + pairs (length (clusters s)) /\
             stable_from merge c0 0 (clusters s).

(** The merger turns down every cluster of [cs] from position [i] on
    with every later one, at whatever call. *)
Definition quiet_from
  (merge : nat -> aligned_t -> aligned_t -> res_t * aligned_t)
  (i : nat) (cs : list aligned_t) : Prop :=
  forall k ia ib a b,
    i <= ia -> ia < ib -> cs !! ia = Some a -> cs !! ib = Some b ->
    (merge k a b).1 = FAILURE.

(** The pairs of records the construction combines (lines 170-177), in
    the order it meets them. *)
Fixpoint combined_pairs (xs ys : list pos_t) : list (pos_t * pos_t) :=
  match xs with
  | [] => []
  | x :: xs' =>
      (fix inner (ys : list pos_t) : list (pos_t * pos_t) :=
         match ys with
         | [] => []
         | y :: ys' =>
             match pos_cmp x y with
             | LT => combined_pairs xs' ys
             | GT => inner ys'
             | EQ => (x, y) :: combined_pairs xs' ys'
             end
         end) ys
  end.

(** A record as the reader of alignments makes it: a code that
    [nuc2bits] gives, seen at least once. *)
Definition valid_record (p : pos_t) : Prop :=
  (1 <= nuc p <= 15)%Z /\ (1 <= cov p)%Z.

(** * Properties *)

(** ** The loops, unfolded once *)

Lemma skip_xs_eq xs y cmp i :
  skip_xs xs y cmp i =
  match cmp, data xs !! (i + 1) with
  | LT, Some x => skip_xs xs y (pos_cmp x y) (i + 1)
  | _, _ => (cmp, i)
  end.
Proof.
  destruct cmp; simp skip_xs; try reflexivity.
  generalize (Logic.inspect (data xs !! (i + 1))). intros [[x|] Hx].
  all: simpl; rewrite Hx; reflexivity.
Qed.

Lemma walk_eq xs ys args st :
  walk xs ys args st =
  match walk_step xs ys args st with
  | Next st' => walk xs ys args st'
  | Exit => inr st
  | Abort msg => inl msg
  end.
Proof.
  simp walk.
  generalize (Logic.inspect (walk_step xs ys args st)). intros [[st'| |msg] Hs].
  all: simpl; rewrite Hs; reflexivity.
Qed.

Lemma skip_ys_eq ys x cmp j :
  skip_ys ys x cmp j =
  match cmp, data ys !! (j + 1) with
  | GT, Some y => skip_ys ys x (pos_cmp x y) (j + 1)
  | _, _ => (cmp, j)
  end.
Proof.
  destruct cmp; simp skip_ys; try reflexivity.
  generalize (Logic.inspect (data ys !! (j + 1))). intros [[y|] Hy].
  all: simpl; rewrite Hy; reflexivity.
Qed.

Lemma fill_both_eq xs ys st :
  fill_both xs ys st =
  match fill_step xs ys st with
  | Some st' => fill_both xs ys st'
  | None => st
  end.
Proof.
  simp fill_both.
  generalize (Logic.inspect (fill_step xs ys st)). intros [[st'|] Hs].
  all: simpl; rewrite Hs; reflexivity.
Qed.

Lemma copy_xs_eq xs st :
  copy_xs xs st =
  match data xs !! fx st with
  | Some x => copy_xs xs (store x (fx st + 1) (fy st) st)
  | None => st
  end.
Proof.
  simp copy_xs.
  generalize (Logic.inspect (data xs !! fx st)). intros [[x|] Hx].
  all: simpl; rewrite Hx; reflexivity.
Qed.

Lemma copy_ys_eq ys st :
  copy_ys ys st =
  match data ys !! fy st with
  | Some y => copy_ys ys (store y (fx st) (fy st + 1) st)
  | None => st
  end.
Proof.
  simp copy_ys.
  generalize (Logic.inspect (data ys !! fy st)). intros [[y|] Hy].
  all: simpl; rewrite Hy; reflexivity.
Qed.

(** ** The nucleotide code *)

Module util_facts.
Import util.

Lemma nuc2bits_canonical_values :
  map nuc2bits canonical = [1; 2; 4; 8; 3; 5; 9; 6; 10; 12; 7; 11; 13; 14; 15]%Z.
Proof. reflexivity. Qed.

Lemma nuc2bits_range c : (1 <= nuc2bits c <= 15)%Z.
Proof.
  destruct c as [[] [] [] [] [] [] [] []]; vm_compute; split; discriminate.
Qed.

Lemma nuc2bits_other c : ~ In c canonical -> nuc2bits c = 15%Z.
Proof.
  intros Hc.
  destruct c as [[] [] [] [] [] [] [] []]; try reflexivity.
  all: exfalso; apply Hc; vm_compute; tauto.
Qed.

Lemma bits2nuc_cases b :
  In b (map nuc2bits canonical) \/ bits2nuc b = "N"%char.
Proof.
  destruct b as [|p|p]; [right; reflexivity| |right; reflexivity].
  do 4 (try destruct p as [p|p|]);
    first [ right; reflexivity | left; vm_compute; tauto ].
Qed.

(** C9.  [nuc2bits] sends the fifteen IUPAC symbols to fifteen distinct
    masks between 1 and 15, [bits2nuc] undoes it on them, every other
    symbol encodes to 15, and [bits2nuc] answers 'N' on 15 and on every
    mask no canonical symbol produces. *)
Theorem nuc_code_roundtrip :
  length canonical = 15 /\
  List.NoDup (map nuc2bits canonical) /\
  (forall c, In c canonical ->
     (0 < nuc2bits c < 16)%Z /\ bits2nuc (nuc2bits c) = c) /\
  (forall c, ~ In c canonical -> nuc2bits c = 15%Z) /\
  bits2nuc 15 = "N"%char /\
  (forall b, ~ In b (map nuc2bits canonical) -> bits2nuc b = "N"%char).
Proof.
  split; [reflexivity|].
  split.
  { rewrite nuc2bits_canonical_values.
    repeat (constructor; [simpl; intuition discriminate|]). constructor. }
  split.
  { intros c Hc. split; [pose proof (nuc2bits_range c); lia|].
    simpl in Hc. intuition (subst; reflexivity). }
  split; [exact nuc2bits_other|].
  split; [reflexivity|].
  intros b Hb. destruct (bits2nuc_cases b); [contradiction|assumption].
Qed.

(** The round trip at 'M' (A or C), a symbol outside the set, and a mask
    no symbol produces. *)
Lemma nuc_code_roundtrip_witness :
  bits2nuc (nuc2bits "M") = "M"%char /\
  nuc2bits "x" = 15%Z /\
  bits2nuc 0 = "N"%char.
Proof.
  destruct nuc_code_roundtrip as (_ & _ & Hinv & Hout & _ & Hdec).
  split; [apply (Hinv "M"%char); vm_compute; tauto|].
  split; [apply (Hout "x"%char); vm_compute; intuition discriminate|].
  apply (Hdec 0%Z); vm_compute; intuition discriminate.
Defined.

End util_facts.

(** ** The comparator *)

Lemma pos_cmp_GT x y :
  pos_cmp x y = GT <->
  (col y < col x \/ (col x = col y /\ ins y < ins x))%Z.
Proof.
  unfold pos_cmp.
  destruct (Z.gtb_spec (col x) (col y)), (Z.gtb_spec (col y) (col x)),
    (Z.gtb_spec (ins x) (ins y)), (Z.ltb_spec (ins y) (ins x));
    split; intros; try discriminate; try reflexivity; lia.
Qed.

Lemma pos_cmp_LT x y : pos_cmp x y = LT <-> (col x < col y)%Z.
Proof.
  unfold pos_cmp.
  destruct (Z.gtb_spec (col x) (col y)), (Z.gtb_spec (col y) (col x)),
    (Z.gtb_spec (ins x) (ins y)), (Z.ltb_spec (ins y) (ins x));
    split; intros; try discriminate; try reflexivity; lia.
Qed.

Lemma pos_cmp_EQ x y :
  pos_cmp x y = EQ <-> (col x = col y /\ ins x <= ins y)%Z.
Proof.
  unfold pos_cmp.
  destruct (Z.gtb_spec (col x) (col y)), (Z.gtb_spec (col y) (col x)),
    (Z.gtb_spec (ins x) (ins y)), (Z.ltb_spec (ins y) (ins x));
    split; intros; try discriminate; try reflexivity; lia.
Qed.

(** C1.  What [pos_cmp] does on a column tie: when [x] has the smaller
    insertion index it answers [EQ], not [LT], while the mirrored call
    answers [GT].  (The test of line 35 repeats the test of line 33.) *)
Theorem pos_cmp_tie_not_mirrored x y :
  col x = col y -> (ins x < ins y)%Z ->
  pos_cmp x y = EQ /\ pos_cmp y x = GT.
Proof.
  intros Hc Hi. split; [apply pos_cmp_EQ|apply pos_cmp_GT]; lia.
Qed.

Lemma pos_cmp_tie_not_mirrored_witness :
  pos_cmp (mk_pos 0 0 1 1) (mk_pos 0 1 1 1) = EQ /\
  pos_cmp (mk_pos 0 1 1 1) (mk_pos 0 0 1 1) = GT.
Proof.
  apply (pos_cmp_tie_not_mirrored (mk_pos 0 0 1 1) (mk_pos 0 1 1 1));
    [reflexivity | simpl; lia].
Defined.

(** ** [merge_two]: header of the merged cluster, and results *)

Lemma MIN_min a b : MIN a b = Z.min a b.
Proof. unfold MIN. destruct (Z.ltb_spec a b); lia. Qed.

Lemma MAX_max a b : MAX a b = Z.max a b.
Proof. unfold MAX. destruct (Z.gtb_spec a b); lia. Qed.

(** The shape of every successful run. *)
Lemma merge_two_Success xs ys args alloc_ok m t :
  merge_two xs ys args alloc_ok = Success m t ->
  exists x0 y0 st0 st,
    data xs !! 0 = Some x0 /\ data ys !! 0 = Some y0 /\
    ((rpos xs <? lpos ys + min_overlap args)%Z
     && (rpos ys <? lpos xs + min_overlap args)%Z) = false /\
    overhang xs ys args x0 y0 = inr st0 /\
    walk xs ys args st0 = inr st /\
    (Z.of_nat (overlap st) <? min_overlap args)%Z = false /\
    alloc_ok = true /\
    let f := fill xs ys (replicate (final_mlen xs ys st) uninit) in
    m = mk_aligned (mdata f) (MIN (lpos xs) (lpos ys))
                   (MAX (rpos xs) (rpos ys)) (ncontrib xs + ncontrib ys) /\
    t = mk_trace (overlap st) (final_mlen xs ys st) (midx f) (oob f).
Proof.
  unfold merge_two.
  destruct (data xs !! 0) as [x0|]; [|discriminate].
  destruct (data ys !! 0) as [y0|]; [|discriminate].
  destruct (_ && _) eqn:Hfast; [discriminate|].
  destruct (overhang xs ys args x0 y0) as [?|st0] eqn:Hov; [discriminate|].
  destruct (walk xs ys args st0) as [?|st] eqn:Hw; [discriminate|].
  destruct (Z.of_nat (overlap st) <? min_overlap args)%Z eqn:Hmin;
    [discriminate|].
  unfold malloc. destruct alloc_ok; [|discriminate].
  intros [= <- <-]. exists x0, y0, st0, st. repeat split; assumption.
Qed.

(** C6.  On [SUCCESS] the merged cluster spans from the smaller left
    bound to the larger right bound and counts the reads of both. *)
Theorem merge_two_header xs ys args alloc_ok m t :
  merge_two xs ys args alloc_ok = Success m t ->
  lpos m = Z.min (lpos xs) (lpos ys) /\
  rpos m = Z.max (rpos xs) (rpos ys) /\
  ncontrib m = (ncontrib xs + ncontrib ys)%Z.
Proof.
  intros H. apply merge_two_Success in H.
  destruct H as (x0 & y0 & st0 & st & _ & _ & _ & _ & _ & _ & _ & -> & _).
  simpl. rewrite MIN_min, MAX_max. auto.
Qed.

(** ** [merge_two]: the two passes agree *)

Section TwoPasses.

Variables xs ys : aligned_t.
Variable args : args_t.

(** Induction along the iterations of each loop. *)
Lemma walk_induction (P : walk_t -> Prop) :
  (forall st, (forall st', walk_step xs ys args st = Next st' -> P st') -> P st) ->
  forall st, P st.
Proof.
  intros step st.
  remember (walk_left xs ys st) as n eqn:Hn. revert st Hn.
  induction n as [n IH] using lt_wf_ind. intros st ->.
  apply step. intros st' Hs. eapply IH; [|reflexivity].
  eapply walk_step_left, Hs.
Qed.

Lemma fill_induction (P : fill_t -> Prop) :
  (forall st, (forall st', fill_step xs ys st = Some st' -> P st') -> P st) ->
  forall st, P st.
Proof.
  intros step st.
  remember (fill_left xs ys st) as n eqn:Hn. revert st Hn.
  induction n as [n IH] using lt_wf_ind. intros st ->.
  apply step. intros st' Hs. eapply IH; [|reflexivity].
  eapply fill_step_left, Hs.
Qed.

Lemma walk_step_fill_step w w' f :
  aligned w f -> walk_step xs ys args w = Next w' ->
  exists f', fill_step xs ys f = Some f' /\ aligned w' f'.
Proof.
  intros (Hx & Hy & Hm). unfold walk_step, fill_step. rewrite <- Hx, <- Hy.
  destruct (data xs !! xidx w) as [x|]; [|discriminate].
  destruct (data ys !! yidx w) as [y|]; [|discriminate].
  destruct (pos_cmp x y).
  - destruct (negb (tol_gaps args)); [discriminate|]. intros [= <-].
    eexists; split; [reflexivity|]. unfold aligned; simpl. lia.
  - destruct (negb (tol_gaps args)); [discriminate|]. intros [= <-].
    eexists; split; [reflexivity|]. unfold aligned; simpl. lia.
  - destruct (compatible args x y); [|discriminate]. intros [= <-].
    eexists; split; [reflexivity|]. unfold aligned; simpl. lia.
Qed.

Lemma walk_step_Exit_fill_step w f :
  aligned w f -> walk_step xs ys args w = Exit -> fill_step xs ys f = None.
Proof.
  intros (Hx & Hy & Hm). unfold walk_step, fill_step. rewrite <- Hx, <- Hy.
  destruct (data xs !! xidx w) as [x|]; [|reflexivity].
  destruct (data ys !! yidx w) as [y|]; [|reflexivity].
  destruct (pos_cmp x y);
    repeat match goal with |- context [if ?b then _ else _] => destruct b end;
    discriminate.
Qed.

(** A walk that reaches its end has made the iterations of the second
    pass, one for one. *)
Lemma walk_fill_both w w' f :
  aligned w f -> walk xs ys args w = inr w' ->
  aligned w' (fill_both xs ys f) /\ walk_step xs ys args w' = Exit.
Proof.
  revert f. induction w as [w IH] using walk_induction. intros f Hal.
  rewrite walk_eq, fill_both_eq.
  destruct (walk_step xs ys args w) as [w1| |msg] eqn:Hs.
  - destruct (walk_step_fill_step _ _ _ Hal Hs) as (f1 & -> & Hal1).
    apply (IH w1 eq_refl f1 Hal1).
  - intros [= <-]. rewrite (walk_step_Exit_fill_step _ _ Hal Hs). auto.
  - discriminate.
Qed.

(** The overhang loops make the same moves as the first iterations of
    the second pass. *)
Lemma skip_xs_fill_both y0 n : forall i x cmp cmp' i' f,
  len xs - i <= n ->
  data ys !! 0 = Some y0 -> data xs !! i = Some x -> cmp = pos_cmp x y0 ->
  fx f = i -> fy f = 0 -> midx f = i ->
  skip_xs xs y0 cmp i = (cmp', i') ->
  exists f', fill_both xs ys f = fill_both xs ys f' /\
             fx f' = i' /\ fy f' = 0 /\ midx f' = i'.
Proof.
  induction n as [|n IH]; intros i x cmp cmp' i' f Hn Hy Hx Hcmp Hfx Hfy Hm.
  { apply lookup_lt_Some in Hx. unfold len in Hn. lia. }
  rewrite skip_xs_eq.
  destruct cmp; try (intros [= <- <-]; exists f; auto).
  destruct (data xs !! (i + 1)) as [x1|] eqn:Hx1;
    [|intros [= <- <-]; exists f; auto].
  intros Hskip.
  assert (Hstep : fill_step xs ys f = Some (store x (fx f + 1) (fy f) f)).
  { unfold fill_step. rewrite Hfx, Hfy, Hx, Hy, <- Hcmp. reflexivity. }
  rewrite (fill_both_eq xs ys f), Hstep.
  eapply (IH (i + 1) x1 _ cmp' i'); try eassumption; try reflexivity.
  - lia.
  - simpl. lia.
  - simpl. lia.
Qed.

Lemma skip_ys_fill_both x0 n : forall j y cmp cmp' j' f,
  len ys - j <= n ->
  data xs !! 0 = Some x0 -> data ys !! j = Some y -> cmp = pos_cmp x0 y ->
  fx f = 0 -> fy f = j -> midx f = j ->
  skip_ys ys x0 cmp j = (cmp', j') ->
  exists f', fill_both xs ys f = fill_both xs ys f' /\
             fx f' = 0 /\ fy f' = j' /\ midx f' = j'.
Proof.
  induction n as [|n IH]; intros j y cmp cmp' j' f Hn Hx Hy Hcmp Hfx Hfy Hm.
  { apply lookup_lt_Some in Hy. unfold len in Hn. lia. }
  rewrite skip_ys_eq.
  destruct cmp; try (intros [= <- <-]; exists f; auto).
  destruct (data ys !! (j + 1)) as [y1|] eqn:Hy1;
    [|intros [= <- <-]; exists f; auto].
  intros Hskip.
  assert (Hstep : fill_step xs ys f = Some (store y (fx f) (fy f + 1) f)).
  { unfold fill_step. rewrite Hfx, Hfy, Hx, Hy, <- Hcmp. reflexivity. }
  rewrite (fill_both_eq xs ys f), Hstep.
  eapply (IH (j + 1) y1 _ cmp' j'); try eassumption; try reflexivity.
  - lia.
  - simpl. lia.
  - simpl. lia.
Qed.

(** After the overhang, the first pass stands where the second pass
    will come by. *)
Lemma overhang_fill_both x0 y0 w0 blk :
  data xs !! 0 = Some x0 -> data ys !! 0 = Some y0 ->
  overhang xs ys args x0 y0 = inr w0 ->
  exists f0, fill_both xs ys (mk_fill 0 0 0 blk false) = fill_both xs ys f0 /\
             aligned w0 f0.
Proof.
  intros Hx Hy. unfold overhang.
  destruct (pos_cmp x0 y0) eqn:Hcmp.
  - destruct (skip_xs xs y0 LT 0) as [cmp i] eqn:Hskip.
    destruct (skip_xs_fill_both y0 (len xs) 0 x0 LT cmp i
                (mk_fill 0 0 0 blk false)) as (f' & Heq & Hfx & Hfy & Hm);
      auto; try lia.
    intros Hw. exists f'. split; [exact Heq|].
    assert (w0 = mk_walk 0 i 0 (0 + i)) as ->.
    { destruct cmp; [| destruct (negb (tol_gaps args)) |]; congruence. }
    unfold aligned; simpl. lia.
  - destruct (skip_ys ys x0 GT 0) as [cmp j] eqn:Hskip.
    destruct (skip_ys_fill_both x0 (len ys) 0 y0 GT cmp j
                (mk_fill 0 0 0 blk false)) as (f' & Heq & Hfx & Hfy & Hm);
      auto; try lia.
    intros Hw. exists f'. split; [exact Heq|].
    assert (w0 = mk_walk 0 0 j (0 + j)) as ->.
    { destruct cmp; [| destruct (negb (tol_gaps args)) |]; congruence. }
    unfold aligned; simpl. lia.
  - intros [= <-]. eexists; split; [reflexivity|].
    unfold aligned; simpl. auto.
Qed.

(** The copy loops store what is left of one array. *)
Lemma copy_xs_midx n : forall st,
  len xs - fx st <= n ->
  midx (copy_xs xs st) = midx st + (len xs - fx st).
Proof.
  induction n as [|n IH]; intros st Hn; rewrite copy_xs_eq;
    destruct (data xs !! fx st) as [x|] eqn:Hx.
  - apply lookup_lt_Some in Hx. unfold len in Hn. lia.
  - apply lookup_ge_None in Hx. unfold len. lia.
  - apply lookup_lt_Some in Hx. rewrite IH; unfold len in *; simpl; lia.
  - apply lookup_ge_None in Hx. unfold len. lia.
Qed.

Lemma copy_ys_midx n : forall st,
  len ys - fy st <= n ->
  midx (copy_ys ys st) = midx st + (len ys - fy st).
Proof.
  induction n as [|n IH]; intros st Hn; rewrite copy_ys_eq;
    destruct (data ys !! fy st) as [y|] eqn:Hy.
  - apply lookup_lt_Some in Hy. unfold len in Hn. lia.
  - apply lookup_ge_None in Hy. unfold len. lia.
  - apply lookup_lt_Some in Hy. rewrite IH; unfold len in *; simpl; lia.
  - apply lookup_ge_None in Hy. unfold len. lia.
Qed.

(** The write index at the end of the second pass is the length the
    first pass predicted. *)
Lemma fill_midx x0 y0 w0 w blk :
  data xs !! 0 = Some x0 -> data ys !! 0 = Some y0 ->
  overhang xs ys args x0 y0 = inr w0 ->
  walk xs ys args w0 = inr w ->
  midx (fill xs ys blk) = final_mlen xs ys w.
Proof.
  intros Hx Hy Hov Hw.
  destruct (overhang_fill_both x0 y0 w0 blk Hx Hy Hov) as (f0 & Heq & Hal).
  destruct (walk_fill_both w0 w f0 Hal Hw) as ((Hfx & Hfy & Hm) & _).
  unfold fill, final_mlen. rewrite Heq.
  set (f := fill_both xs ys f0) in *. rewrite Hfx, Hfy, Hm.
  destruct (fx f <? len xs); [apply (copy_xs_midx (len xs)); lia|].
  destruct (fy f <? len ys); [apply (copy_ys_midx (len ys)); lia|].
  reflexivity.
Qed.

Lemma store_ok blk v i j st : fill_ok blk st -> fill_ok blk (store v i j st).
Proof.
  intros [Hl Ho]. unfold fill_ok, store; simpl.
  rewrite length_insert, Ho, Hl. split; [reflexivity|].
  destruct (Nat.ltb_spec (length blk) (midx st)),
    (Nat.leb_spec (length blk) (midx st)),
    (Nat.ltb_spec (length blk) (midx st + 1)); simpl; try reflexivity; lia.
Qed.

Lemma fill_both_ok blk st : fill_ok blk st -> fill_ok blk (fill_both xs ys st).
Proof.
  induction st as [st IH] using fill_induction. intros Hok.
  rewrite fill_both_eq.
  destruct (fill_step xs ys st) as [st'|] eqn:Hs; [|exact Hok].
  apply (IH st' eq_refl). revert Hs. unfold fill_step.
  destruct (data xs !! fx st) as [x|]; [|discriminate].
  destruct (data ys !! fy st) as [y|]; [|discriminate].
  destruct (pos_cmp x y); intros [= <-]; apply store_ok, Hok.
Qed.

Lemma copy_xs_ok blk n : forall st,
  len xs - fx st <= n -> fill_ok blk st -> fill_ok blk (copy_xs xs st).
Proof.
  induction n as [|n IH]; intros st Hn Hok; rewrite copy_xs_eq;
    destruct (data xs !! fx st) as [x|] eqn:Hx; try exact Hok.
  - apply lookup_lt_Some in Hx. unfold len in Hn. lia.
  - apply lookup_lt_Some in Hx.
    apply IH; [unfold len in *; simpl; lia|apply store_ok, Hok].
Qed.

Lemma copy_ys_ok blk n : forall st,
  len ys - fy st <= n -> fill_ok blk st -> fill_ok blk (copy_ys ys st).
Proof.
  induction n as [|n IH]; intros st Hn Hok; rewrite copy_ys_eq;
    destruct (data ys !! fy st) as [y|] eqn:Hy; try exact Hok.
  - apply lookup_lt_Some in Hy. unfold len in Hn. lia.
  - apply lookup_lt_Some in Hy.
    apply IH; [unfold len in *; simpl; lia|apply store_ok, Hok].
Qed.

Lemma fill_is_ok blk : fill_ok blk (fill xs ys blk).
Proof.
  assert (H0 : fill_ok blk (fill_both xs ys (mk_fill 0 0 0 blk false))).
  { apply fill_both_ok. split; reflexivity. }
  unfold fill.
  set (f := fill_both xs ys (mk_fill 0 0 0 blk false)) in *.
  destruct (fx f <? len xs); [apply (copy_xs_ok blk (len xs)); [lia|exact H0]|].
  destruct (fy f <? len ys); [apply (copy_ys_ok blk (len ys)); [lia|exact H0]|].
  exact H0.
Qed.

End TwoPasses.

(** C10.  Whenever [merge_two] returns [SUCCESS], the write index at the
    end of the construction is the predicted length [mlen]: no store went
    outside the block of [mlen] cells, the array handed back has [mlen]
    cells, and neither diagnostic of lines 188-191 is printed. *)
Theorem merge_two_fills_exactly xs ys args alloc_ok m t :
  merge_two xs ys args alloc_ok = Success m t ->
  t_midx t = t_mlen t /\
  t_oob t = false /\
  length (data m) = t_mlen t /\
  diagnostic (t_midx t) (t_mlen t) = None.
Proof.
  intros H. apply merge_two_Success in H.
  destruct H as (x0 & y0 & w0 & w & Hx & Hy & _ & Hov & Hw & _ & _ & -> & ->).
  set (n := final_mlen xs ys w). simpl.
  pose proof (fill_midx xs ys args x0 y0 w0 w (replicate n uninit) Hx Hy Hov Hw)
    as Hm.
  destruct (fill_is_ok xs ys (replicate n uninit)) as [Hl Ho].
  rewrite length_replicate in Hl, Ho. fold n in Hm.
  rewrite Ho, Hl, Hm. unfold diagnostic. rewrite Nat.ltb_irrefl. auto.
Qed.

(** ** [merge_two]: the overlap counter *)





Section Overlap.

Variables xs ys : aligned_t.
Variable args : args_t.


Lemma overhang_overlap x0 y0 w0 :
  overhang xs ys args x0 y0 = inr w0 -> overlap w0 = 0.
Proof.
  unfold overhang. destruct (pos_cmp x0 y0).
  - destruct (skip_xs xs y0 LT 0) as [[] i];
      [|destruct (negb (tol_gaps args))|]; intros [= <-]; reflexivity.
  - destruct (skip_ys ys x0 GT 0) as [[] j];
      [|destruct (negb (tol_gaps args))|]; intros [= <-]; reflexivity.
  - intros [= <-]; reflexivity.
Qed.

Lemma overhang_msg x0 y0 msg :
  overhang xs ys args x0 y0 = inl msg ->
  msg = no_gaps_in_ys \/ msg = no_gaps_in_xs.
Proof.
  unfold overhang. destruct (pos_cmp x0 y0).
  - destruct (skip_xs xs y0 LT 0) as [[] i];
      [|destruct (negb (tol_gaps args))|]; intros [= <-]; auto.
  - destruct (skip_ys ys x0 GT 0) as [[] j];
      [|destruct (negb (tol_gaps args))|]; intros [= <-]; auto.
  - discriminate.
Qed.

Lemma walk_msg w msg :
  walk xs ys args w = inl msg ->
  msg = no_gaps_in_xs \/ msg = no_gaps_in_ys \/ msg = mismatch.
Proof.
  induction w as [w IH] using (walk_induction xs ys args).
  rewrite walk_eq.
  destruct (walk_step xs ys args w) as [w1| |m] eqn:Hs;
    [apply (IH w1 eq_refl)|discriminate|].
  intros [= ->]. revert Hs. unfold walk_step.
  destruct (data xs !! xidx w) as [x|]; [|discriminate].
  destruct (data ys !! yidx w) as [y|]; [|discriminate].
  destruct (pos_cmp x y);
    repeat match goal with |- context [if ?b then _ else _] => destruct b end;
    intros [= <-]; auto.
Qed.

End Overlap.


(** ** [merge_two]: coinciding positions during the walk *)

Lemma walk_rtc xs ys args w0 w :
  rtc (fun w1 w2 => walk_step xs ys args w1 = Next w2) w0 w ->
  walk xs ys args w0 = walk xs ys args w.
Proof.
  induction 1 as [|w0 w1 w Hs _ IH]; [reflexivity|].
  rewrite walk_eq, Hs. exact IH.
Qed.

Lemma compatible_spec args x y :
  compatible args x y = true <->
  nuc x = nuc y \/ (tol_ambigs args = true /\ Z.land (nuc x) (nuc y) <> 0%Z).
Proof.
  unfold compatible.
  destruct (Z.eqb_spec (nuc x) (nuc y)), (tol_ambigs args),
    (Z.eqb_spec (Z.land (nuc x) (nuc y)) 0); simpl; split; intros;
    try reflexivity; try discriminate; intuition congruence.
Qed.

(** C4.  At a state of the walk whose two current records compare [EQ]:
    if the codes are equal, or [tol_ambigs] is set and their bitwise AND
    is not zero, the iteration counts one overlap and moves both indices
    on; otherwise the iteration aborts with "mismatch" and that is what
    [merge_two] returns. *)
Theorem walk_equal_positions xs ys args alloc_ok w x y :
  in_walk xs ys args w ->
  data xs !! xidx w = Some x -> data ys !! yidx w = Some y ->
  pos_cmp x y = EQ ->
  (nuc x = nuc y \/ (tol_ambigs args = true /\ Z.land (nuc x) (nuc y) <> 0%Z) ->
   walk_step xs ys args w =
   Next (mk_walk (overlap w + 1) (xidx w + 1) (yidx w + 1) (mlen w + 1))) /\
  (~ (nuc x = nuc y \/ (tol_ambigs args = true /\ Z.land (nuc x) (nuc y) <> 0%Z)) ->
   walk_step xs ys args w = Abort mismatch /\
   merge_two xs ys args alloc_ok = Failure mismatch).
Proof.
  intros (x0 & y0 & w0 & Hx0 & Hy0 & Hfast & Hov & Hreach) Hx Hy Hcmp.
  assert (Hstep : walk_step xs ys args w =
                  if compatible args x y
                  then Next (mk_walk (overlap w + 1) (xidx w + 1)
                                     (yidx w + 1) (mlen w + 1))
                  else Abort mismatch).
  { unfold walk_step. rewrite Hx, Hy, Hcmp. reflexivity. }
  pose proof (compatible_spec args x y) as Hc.
  destruct (compatible args x y); split; intros H.
  - exact Hstep.
  - exfalso. apply H, Hc. reflexivity.
  - apply Hc in H. discriminate.
  - split; [exact Hstep|].
    unfold merge_two. rewrite Hx0, Hy0, Hfast, Hov, (walk_rtc _ _ _ _ _ Hreach).
    rewrite walk_eq, Hstep. reflexivity.
Qed.

(** ** [merge_clusters] *)

Lemma evolves_refl s : evolves s s.
Proof. unfold evolves. auto. Qed.

Lemma evolves_trans s1 s2 s3 : evolves s1 s2 -> evolves s2 s3 -> evolves s1 s3.
Proof.
  unfold evolves. intros (? & ? & [[? ?]|[? ?]]) (? & ? & [[? ?]|[? ?]]);
    repeat split; try lia; try congruence.
  - left. split; congruence.
  - right. split; [assumption|lia].
  - right. split; [congruence|lia].
  - right. split; [assumption|lia].
Qed.

Section AggregationFacts.

Variable merge : nat -> aligned_t -> aligned_t -> res_t * aligned_t.
Context {sorter : Sorter}.
Variable args : args_t.

Lemma scan_returns fuel : forall i j s,
  i < j -> i < length (clusters s) ->
  (length (clusters s) - j) + length (clusters s) * length (clusters s) + 1
    <= fuel ->
  exists r, scan merge fuel i j s = Some r /\
            evolves s (state_of r) /\
            i < length (clusters (state_of r)) /\
            nclusters (state_of r) = nclusters s /\
            returns_error merge r.
Proof.
  induction fuel as [|fuel IH]; intros i j s Hij Hi Hfuel; [lia|].
  simpl.
  destruct (clusters s !! j) as [b|] eqn:Hb.
  2:{ eexists; split; [reflexivity|]. simpl. auto using evolves_refl. }
  pose proof (lookup_lt_Some _ _ _ Hb) as Hj.
  destruct (clusters s !! i) as [a|] eqn:Ha.
  2:{ apply lookup_ge_None in Ha. lia. }
  destruct (merge (calls s) a b) as [[] merged] eqn:Hm.
  - (* SUCCESS *)
    set (s1 := mk_agg _ _ _ _ _ _).
    assert (Hlen : length (clusters s1) = length (clusters s) - 1).
    { simpl. rewrite length_delete, !length_insert; [reflexivity|].
      apply lookup_lt_is_Some. rewrite !length_insert. exact Hj. }
    destruct (IH i (i + 1) s1) as (r & Hr & Hev & Hi' & Hn & He).
    + lia.
    + lia.
    + rewrite Hlen. nia.
    + exists r. split; [exact Hr|]. split; [|auto].
      eapply evolves_trans; [|exact Hev].
      unfold evolves. rewrite Hlen. simpl.
      split; [lia|]. split; [reflexivity|]. right. split; [reflexivity|lia].
  - (* FAILURE *)
    set (s1 := mk_agg _ _ _ _ _ _).
    destruct (IH i (j + 1) s1) as (r & Hr & Hev & Hi' & Hn & He).
    + lia.
    + exact Hi.
    + simpl. lia.
    + exists r. split; [exact Hr|]. split; [|auto].
      eapply evolves_trans; [|exact Hev].
      unfold evolves. simpl. auto.
  - (* ERROR *)
    eexists; split; [reflexivity|]. simpl.
    split; [unfold evolves; simpl; auto|].
    repeat split; eauto.
Qed.

(** Line 229: an [ERROR] from the merger leaves the loops at once. *)
Lemma scan_ERROR fuel i j s a b m :
  clusters s !! i = Some a -> clusters s !! j = Some b ->
  merge (calls s) a b = (ERROR, m) ->
  scan merge (S fuel) i j s =
  Some (Return (-1) (mk_agg (clusters s) (nclusters s) (repeat s)
                            (calls s + 1) (merges s) (passes s))).
Proof. intros Ha Hb Hm. simpl. rewrite Hb, Ha, Hm. reflexivity. Qed.

Lemma scan_more_fuel fuel : forall fuel' i j s r,
  scan merge fuel i j s = Some r -> fuel <= fuel' ->
  scan merge fuel' i j s = Some r.
Proof.
  induction fuel as [|fuel IH]; intros [|fuel'] i j s r; simpl;
    try discriminate; try lia.
  intros H Hle.
  destruct (clusters s !! j); [|exact H].
  destruct (clusters s !! i); [|exact H].
  destruct (merge (calls s) _ _) as [[] ?];
    try exact H; (apply IH; [exact H|lia]).
Qed.

Lemma count_evolves a s : evolves s (count args a s).
Proof.
  unfold count, evolves.
  destruct (ncontrib a >=? min_reads args)%Z; simpl; auto.
Qed.

Lemma count_nclusters a s :
  (nclusters s <= nclusters (count args a s))%Z /\
  clusters (count args a s) = clusters s.
Proof.
  unfold count.
  destruct (ncontrib a >=? min_reads args)%Z; simpl; split;
    reflexivity || lia.
Qed.

Lemma pass_returns fuel : forall i s,
  (length (clusters s) - i) + length (clusters s) * length (clusters s) + 2
    <= fuel ->
  exists r, pass merge args fuel i s = Some r /\
            evolves s (state_of r) /\
            (nclusters s <= nclusters (state_of r))%Z /\
            returns_error merge r.
Proof.
  induction fuel as [|fuel IH]; intros i s Hfuel; [lia|].
  simpl.
  destruct (clusters s !! i) as [a0|] eqn:Ha0.
  2:{ eexists; split; [reflexivity|]. simpl.
      split; [apply evolves_refl|]. split; [lia|exact I]. }
  pose proof (lookup_lt_Some _ _ _ Ha0) as Hi.
  destruct (scan_returns fuel i (i + 1) s) as (r & -> & Hev & Hi' & Hn & He);
    [lia|exact Hi|lia|].
  destruct r as [s'|v s']; simpl in *.
  2:{ eexists; split; [reflexivity|]. simpl. split; [exact Hev|].
      split; [lia|exact He]. }
  destruct (clusters s' !! i) as [a|] eqn:Ha.
  2:{ apply lookup_ge_None in Ha. lia. }
  destruct (count_nclusters a s') as [Hc Hcs].
  assert (Hle : length (clusters s') <= length (clusters s)).
  { destruct Hev as (? & _ & [[_ ?]|[_ ?]]); lia. }
  destruct (IH (i + 1) (count args a s')) as (r & Hr & Hev' & Hn' & He').
  { rewrite Hcs. nia. }
  exists r. split; [exact Hr|]. split; [|split; [lia|exact He']].
  eapply evolves_trans; [exact Hev|].
  eapply evolves_trans; [apply count_evolves|exact Hev'].
Qed.

Lemma pass_more_fuel fuel : forall fuel' i s r,
  pass merge args fuel i s = Some r -> fuel <= fuel' ->
  pass merge args fuel' i s = Some r.
Proof.
  induction fuel as [|fuel IH]; intros [|fuel'] i s r; simpl;
    try discriminate; try lia.
  intros H Hle.
  destruct (clusters s !! i); [|exact H].
  destruct (scan merge fuel i (i + 1) s) as [r1|] eqn:Hs; [|discriminate].
  rewrite (scan_more_fuel fuel fuel' _ _ _ _ Hs) by lia.
  destruct r1 as [s'|]; [|exact H].
  destruct (clusters s' !! i); [|exact H].
  apply IH; [exact H|lia].
Qed.

Lemma outer_returns fuel : forall s,
  (length (clusters s) + 1) * (length (clusters s) + 1) + 2 <= fuel ->
  exists v s', outer merge args fuel s = Some (v, s') /\ outer_post merge s v s'.
Proof.
  induction fuel as [|fuel IH]; intros s Hfuel; [lia|].
  simpl. set (s1 := mk_agg _ _ _ _ _ _).
  assert (Hlen : length (clusters s1) = length (clusters s)).
  { simpl. apply Permutation_length, sort_perm. }
  destruct (pass_returns fuel 0 s1) as (r & -> & Hev & Hn & He).
  { rewrite Hlen. nia. }
  destruct Hev as (Hcons & Hp & Hrep). rewrite Hlen in Hcons.
  simpl in Hcons, Hp, Hrep, Hn.
  destruct r as [s'|v s']; simpl in *.
  2:{ exists v, s'. split; [reflexivity|]. unfold outer_post.
      repeat split; try lia. right. exact He. }
  destruct (repeat s') eqn:Hr.
  - destruct Hrep as [[? _]|[_ Hlt]]; [discriminate|].
    destruct (IH s') as (v & s2 & -> & H1 & H2 & H3 & H4 & H5); [nia|].
    exists v, s2. split; [reflexivity|]. unfold outer_post.
    repeat split; try lia. exact H5.
  - exists (nclusters s'), s'. split; [reflexivity|]. unfold outer_post.
    repeat split; lia.
Qed.

Lemma outer_more_fuel fuel : forall fuel' s r,
  outer merge args fuel s = Some r -> fuel <= fuel' ->
  outer merge args fuel' s = Some r.
Proof.
  induction fuel as [|fuel IH]; intros [|fuel'] s r; simpl;
    try discriminate; try lia.
  intros H Hle.
  destruct (pass merge args fuel 0 _) as [r1|] eqn:Hs; [|discriminate].
  rewrite (pass_more_fuel fuel fuel' _ _ _ Hs) by lia.
  destruct r1 as [s'|]; [|exact H].
  destruct (repeat s'); [|exact H].
  apply IH; [exact H|lia].
Qed.

(** [merge_clusters] returns on every vector, and whatever fuel let it
    return found the same result. *)
Lemma merge_clusters_with_returns cs :
  exists v s,
    outer_post merge (mk_agg cs 0 false 0 0 0) v s /\
    forall fuel, enough (length cs) <= fuel ->
                 merge_clusters_with merge args fuel cs = Some (v, s).
Proof.
  destruct (outer_returns (enough (length cs)) (mk_agg cs 0 false 0 0 0))
    as (v & s & Hrun & Hpost).
  { unfold enough. simpl. lia. }
  exists v, s. split; [exact Hpost|].
  intros fuel Hfuel. eapply outer_more_fuel; eassumption.
Qed.

Lemma merge_clusters_with_post fuel cs v s :
  merge_clusters_with merge args fuel cs = Some (v, s) ->
  outer_post merge (mk_agg cs 0 false 0 0 0) v s.
Proof.
  intros Hrun.
  destruct (merge_clusters_with_returns cs) as (v' & s' & Hpost & Hall).
  pose proof (Hall (Nat.max fuel (enough (length cs))) ltac:(lia)) as H1.
  pose proof (outer_more_fuel _ (Nat.max fuel (enough (length cs))) _ _ Hrun
                ltac:(lia)) as H2.
  unfold merge_clusters_with in H1. rewrite H2 in H1.
  injection H1 as -> ->. exact Hpost.
Qed.

End AggregationFacts.

(** *** The run of [merge_clusters] on [merge_two] *)

Lemma merge_two_call_not_ERROR args a b alloc_ok m :
  merge_two_call args a b alloc_ok <> (ERROR, m).
Proof. unfold merge_two_call. destruct (merge_two a b args alloc_ok); discriminate. Qed.

(** C7.  [merge_clusters] returns with a vector no longer than the one it
    was given, and shorter by exactly the number of successful merges. *)
Theorem merge_clusters_size `{Sorter} alloc args cs :
  exists v s,
    merge_clusters alloc args (enough (length cs)) cs = Some (v, s) /\
    length (clusters s) <= length cs /\
    length cs - length (clusters s) = merges s.
Proof.
  destruct (merge_clusters_with_returns
              (fun k a b => merge_two_call args a b (alloc k)) args cs)
    as (v & s & (Hcons & _) & Hall).
  exists v, s. split; [apply Hall; lia|]. simpl in Hcons. lia.
Qed.

(** C8.  [merge_clusters] returns on every vector of clusters: there is
    one result that every fuel from [enough] on finds.  The merges are at
    most as many as the clusters, each pass but the last has made one,
    and the body of the [do] loop runs at least once. *)
Theorem merge_clusters_terminates `{Sorter} alloc args cs :
  exists v s,
    (forall fuel, enough (length cs) <= fuel ->
                  merge_clusters alloc args fuel cs = Some (v, s)) /\
    length (clusters s) + merges s = length cs /\
    merges s <= length cs /\
    1 <= passes s <= merges s + 1.
Proof.
  destruct (merge_clusters_with_returns
              (fun k a b => merge_two_call args a b (alloc k)) args cs)
    as (v & s & (Hcons & _ & Hp1 & Hp2 & _) & Hall).
  exists v, s. split; [exact Hall|]. simpl in *. lia.
Qed.

(** C2, as the code has it.  A run of [merge_two] that reaches the
    allocation and finds it failed returns [FAILURE], as every [ABORT]
    does; and [merge_clusters], which would return -1 on [ERROR], never
    does so on the results of [merge_two]. *)
Theorem allocation_failure_is_FAILURE `{Sorter} xs ys args m t alloc fuel cs v s :
  (merge_two xs ys args true = Success m t ->
   merge_two xs ys args false = Failure memory_allocation_error /\
   res_of (merge_two xs ys args false) = FAILURE) /\
  (merge_clusters alloc args fuel cs = Some (v, s) -> (0 <= v)%Z).
Proof.
  split.
  - intros Hok. apply merge_two_Success in Hok.
    destruct Hok as (x0 & y0 & w0 & w & Hx & Hy & Hfast & Hov & Hw & Hmin & _).
    assert (merge_two xs ys args false = Failure memory_allocation_error) as ->.
    { unfold merge_two. rewrite Hx, Hy, Hfast, Hov, Hw, Hmin. reflexivity. }
    auto.
  - intros Hrun. apply merge_clusters_with_post in Hrun.
    destruct Hrun as (_ & _ & _ & _ & [Hv | (_ & k & a & b & m' & Hm)]);
      [exact Hv|].
    exfalso. exact (merge_two_call_not_ERROR _ _ _ _ _ Hm).
Qed.

(** ** Witnesses and scenarios *)

Lemma merge_two_header_witness :
  lpos acg2 = Z.min (lpos acg) (lpos acg) /\
  rpos acg2 = Z.max (rpos acg) (rpos acg) /\
  ncontrib acg2 = (ncontrib acg + ncontrib acg)%Z.
Proof.
  apply (merge_two_header acg acg (strict 2) true acg2 (mk_trace 3 3 3 false)).
  vm_compute. reflexivity.
Defined.

Lemma merge_two_fills_exactly_witness :
  t_midx (mk_trace 3 3 3 false) = t_mlen (mk_trace 3 3 3 false) /\
  t_oob (mk_trace 3 3 3 false) = false /\
  length (data acg2) = t_mlen (mk_trace 3 3 3 false) /\
  diagnostic (t_midx (mk_trace 3 3 3 false)) (t_mlen (mk_trace 3 3 3 false)) = None.
Proof.
  apply (merge_two_fills_exactly acg acg (strict 2) true acg2 (mk_trace 3 3 3 false)).
  vm_compute. reflexivity.
Defined.



(** Where two positions compare [EQ] the walk counts an overlap that the
    clusters do not have.  [before_ins] and [from_ins] share no position,
    yet the record of (5, 0) is taken for that of (5, 1), one overlap is
    counted, and with [min_overlap] 1 the clusters are merged.  With the
    arguments exchanged [pos_cmp] answers [GT] and the pair is turned
    down. *)
Example tie_counted_as_overlap :
  max_overlap (strict 1) (data before_ins) (data from_ins) = 0 /\
  tie_free (data before_ins) (data from_ins) = false /\
  pos_cmp (mk_pos 5 0 20 1) (mk_pos 5 1 1 1) = EQ /\
  merge_two before_ins from_ins (strict 1) true =
    Success (mk_aligned [mk_pos 4 0 10 1; mk_pos 5 0 21 1] 4 5 2)
            (mk_trace 1 2 2 false) /\
  merge_two from_ins before_ins (strict 1) true = Failure no_gaps_in_xs.
Proof. repeat split; vm_compute; reflexivity. Qed.

Lemma walk_equal_positions_witness :
  walk_step acg acg (strict 1) (mk_walk 0 0 0 0) = Next (mk_walk 1 1 1 1) /\
  walk_step acg ttt (strict 1) (mk_walk 0 0 0 0) = Abort mismatch /\
  merge_two acg ttt (strict 1) true = Failure mismatch.
Proof.
  assert (Hin : forall ys, ys = acg \/ ys = ttt ->
                           in_walk acg ys (strict 1) (mk_walk 0 0 0 0)).
  { intros ys Hys.
    exists (mk_pos 10 0 1 1), (mk_pos 10 0 1 (nuc (hd uninit (data ys)))),
           (mk_walk 0 0 0 0).
    destruct Hys as [-> | ->]; repeat split; try reflexivity; apply rtc_refl. }
  split.
  - apply (walk_equal_positions acg acg (strict 1) true (mk_walk 0 0 0 0)
             (mk_pos 10 0 1 1) (mk_pos 10 0 1 1));
      [apply Hin; auto | reflexivity | reflexivity | reflexivity | auto].
  - apply (walk_equal_positions acg ttt (strict 1) true (mk_walk 0 0 0 0)
             (mk_pos 10 0 1 1) (mk_pos 10 0 1 8));
      [apply Hin; auto | reflexivity | reflexivity | reflexivity |].
    simpl. intros [H | [H _]]; discriminate.
Defined.

(** C5, on a read that starts on an insertion.  Position (5, 1) is in
    both clusters, yet its record comes out with the coverage of
    [with_ins] alone, and the record of (5, 0), which only [with_ins]
    has, comes out with both coverages added: [pos_cmp] answered [EQ] for
    (5, 0) against (5, 1).  With the arguments exchanged the merge is the
    expected one. *)
Theorem merge_two_start_on_insertion :
  pos_cmp (mk_pos 5 1 30 1) (mk_pos 5 1 1 1) = EQ /\
  merge_two with_ins from_ins (strict 1) true =
    Success (mk_aligned [mk_pos 4 0 10 1; mk_pos 5 0 21 1; mk_pos 5 1 30 1] 4 5 2)
            (mk_trace 1 3 3 false) /\
  merge_two from_ins with_ins (strict 1) true =
    Success (mk_aligned [mk_pos 4 0 10 1; mk_pos 5 0 20 1; mk_pos 5 1 31 1] 4 5 2)
            (mk_trace 1 3 3 false).
Proof. repeat split; vm_compute; reflexivity. Qed.

Lemma allocation_failure_is_FAILURE_witness :
  (merge_two acg acg (mk_args 2 1 false false) false
     = Failure memory_allocation_error /\
   res_of (merge_two acg acg (mk_args 2 1 false false) false) = FAILURE) /\
  merge_clusters (fun _ => false) (mk_args 2 1 false false) 11 [acg; acg]
     = Some (2%Z, mk_agg [acg; acg] 2 false 1 0 1) /\
  (0 <= 2)%Z.
Proof.
  assert (Hrun : merge_clusters (fun _ => false) (mk_args 2 1 false false) 11
                   [acg; acg] = Some (2%Z, mk_agg [acg; acg] 2 false 1 0 1))
    by (vm_compute; reflexivity).
  pose proof (allocation_failure_is_FAILURE acg acg (mk_args 2 1 false false)
                acg2 (mk_trace 3 3 3 false) (fun _ => false) 11 [acg; acg]
                2%Z (mk_agg [acg; acg] 2 false 1 0 1)) as [H1 H2].
  split; [apply H1; vm_compute; reflexivity|].
  split; [exact Hrun | exact (H2 Hrun)].
Defined.

Lemma merge_clusters_size_witness :
  exists v s,
    merge_clusters (fun _ => true) (strict 2) (enough 4) [acg; acg; acg; ttt]
      = Some (v, s) /\
    length (clusters s) <= 4 /\ 4 - length (clusters s) = merges s.
Proof.
  exact (merge_clusters_size (fun _ => true) (strict 2) [acg; acg; acg; ttt]).
Defined.

Lemma merge_clusters_terminates_witness :
  exists v s,
    merge_clusters (fun _ => true) (strict 2) 100 [acg; acg; acg; ttt]
      = Some (v, s) /\
    merges s <= 4.
Proof.
  destruct (merge_clusters_terminates (fun _ => true) (strict 2)
              [acg; acg; acg; ttt]) as (v & s & Hall & _ & Hm & _).
  exists v, s. split; [apply Hall; vm_compute; lia | exact Hm].
Defined.

Example max_overlap_examples :
  max_overlap (strict 1) (data acg) (data acg) = 3 /\
  max_overlap (strict 1) (data acg) (data g_only) = 1 /\
  max_overlap (strict 1) (data acg) (data ttt) = 0 /\
  max_overlap (strict 1) (data read_M) (data read_A) = 0 /\
  max_overlap (lenient 1) (data read_M) (data read_A) = 1 /\
  max_overlap (strict 1) (data with_ins) (data from_ins) = 1.
Proof. repeat split; reflexivity. Qed.

(** What [merge_clusters] does with a merger that reports [ERROR]: the
    value -1, after one call, the vector as the sort left it. *)
Example error_path_returns_minus_one :
  merge_clusters_with (fun _ _ _ => (ERROR, merged_init)) (strict 2) 11
                      [acg; ttt] =
    Some ((-1)%Z, mk_agg [acg; ttt] 0 false 1 0 1).
Proof. vm_compute. reflexivity. Qed.

(** Scenarios A to E of the specification. *)
Example scenario_A :
  merge_two acg acg (strict 2) true = Success acg2 (mk_trace 3 3 3 false).
Proof. vm_compute. reflexivity. Qed.

Example scenario_B :
  merge_two acg g_only (strict 2) true = Failure insufficient_overlap.
Proof. vm_compute. reflexivity. Qed.

Example scenario_C :
  merge_two acg a_g (strict 1) true = Failure no_gaps_in_xs /\
  res_of (merge_two acg a_g (lenient 1) true) = SUCCESS.
Proof. split; vm_compute; reflexivity. Qed.

Example scenario_D :
  merge_two read_M read_A (lenient 1) true =
    Success (mk_aligned [mk_pos 7 0 2 (Z.min 3 1)] 7 8 2) (mk_trace 1 1 1 false) /\
  merge_two read_M read_A (strict 1) true = Failure mismatch.
Proof. split; vm_compute; reflexivity. Qed.

Example scenario_E :
  merge_clusters (fun _ => true) (strict 2) (enough 4) [acg; acg; acg; ttt] =
    Some (1%Z, mk_agg [acg3; ttt] 1 false 4 2 2).
Proof. vm_compute. reflexivity. Qed.

(** * Further properties *)

(** ** The comparator and the code *)

(** X1.  [pos_cmp] never reports an order that is not there: [LT] and
    [GT] agree with the order by column and insertion index, every pair
    that is in order the other way round is reported [GT], and a record
    compares [EQ] to itself.  Only [EQ] can be reported for records of
    different positions, and then [x] is the smaller one. *)
Theorem pos_cmp_sound x y :
  (pos_cmp x y = LT -> key_lt x y) /\
  (pos_cmp x y = GT <-> key_lt y x) /\
  (pos_cmp x y = EQ -> (col x = col y /\ ins x = ins y) \/ key_lt x y) /\
  pos_cmp x x = EQ.
Proof.
  unfold key_lt. rewrite pos_cmp_LT, pos_cmp_GT, !pos_cmp_EQ.
  repeat split; intros; lia.
Qed.

Lemma pos_cmp_sound_witness :
  key_lt (mk_pos 4 7 1 1) (mk_pos 5 0 1 1) /\
  pos_cmp (mk_pos 5 0 1 1) (mk_pos 4 7 1 1) = GT.
Proof.
  split.
  - apply (proj1 (pos_cmp_sound (mk_pos 4 7 1 1) (mk_pos 5 0 1 1))).
    reflexivity.
  - apply (proj2 (proj1 (proj2 (pos_cmp_sound (mk_pos 5 0 1 1) (mk_pos 4 7 1 1))))).
    unfold key_lt; simpl; lia.
Defined.

Module util_more.
Import util.

(** X2.  Decoding then encoding: [bits2nuc] always answers one of the
    fifteen symbols, and [nuc2bits] gives back the mask for the fifteen
    masks 1 to 15; every other mask comes back as 15. *)
Theorem bits2nuc_then_nuc2bits b :
  In (bits2nuc b) canonical /\
  ((1 <= b <= 15)%Z -> nuc2bits (bits2nuc b) = b) /\
  (~ (1 <= b <= 15)%Z -> nuc2bits (bits2nuc b) = 15%Z).
Proof.
  destruct b as [|p|p]; [| do 4 (try destruct p as [p|p|]) |];
    (split; [vm_compute; tauto|]); split; intros H;
    try reflexivity; exfalso; lia.
Qed.

Lemma bits2nuc_then_nuc2bits_witness :
  nuc2bits (bits2nuc 6) = 6%Z /\ nuc2bits (bits2nuc 16) = 15%Z.
Proof.
  split.
  - apply (bits2nuc_then_nuc2bits 6). lia.
  - apply (bits2nuc_then_nuc2bits 16). lia.
Defined.

Lemma nuc2bits_land_15 c : Z.land (nuc2bits c) 15 = nuc2bits c.
Proof. destruct c as [[] [] [] [] [] [] [] []]; reflexivity. Qed.

(** X3.  The wildcard under [tol_ambigs]: a record coded from 'N', or
    from any character outside the fifteen symbols, is compatible with a
    record coded from any character whatever. *)
Theorem wildcard_compatible args c d x y :
  tol_ambigs args = true ->
  ~ In c (removelast canonical) ->
  nuc x = nuc2bits c -> nuc y = nuc2bits d ->
  compatible args x y = true /\ compatible args y x = true.
Proof.
  intros Htol Hc Hx Hy.
  assert (Hn : nuc2bits c = 15%Z).
  { destruct c as [[] [] [] [] [] [] [] []]; try reflexivity.
    all: exfalso; apply Hc; vm_compute; tauto. }
  pose proof (util_facts.nuc2bits_range d) as Hd.
  pose proof (nuc2bits_land_15 d) as Hl.
  split; apply compatible_spec; right; (split; [exact Htol|]);
    rewrite Hx, Hy, Hn; [rewrite Z.land_comm|]; rewrite Hl; lia.
Qed.

Lemma wildcard_compatible_witness :
  compatible (lenient 1) (mk_pos 3 0 1 15) (mk_pos 3 0 1 6) = true /\
  compatible (lenient 1) (mk_pos 3 0 1 6) (mk_pos 3 0 1 15) = true.
Proof.
  apply (wildcard_compatible (lenient 1) "N"%char "S"%char);
    [reflexivity | vm_compute; intuition discriminate
     | reflexivity | reflexivity].
Defined.

End util_more.

(** ** [merge_two]: the records of the merged cluster *)

Lemma merged_records_nil_r l : merged_records l [] = l.
Proof. destruct l; reflexivity. Qed.

Lemma merged_records_cons x xs y ys :
  merged_records (x :: xs) (y :: ys) =
  match pos_cmp x y with
  | LT => x :: merged_records xs (y :: ys)
  | GT => y :: merged_records (x :: xs) ys
  | EQ => combine x y :: merged_records xs ys
  end.
Proof. reflexivity. Qed.

Lemma store_take v i j st :
  midx st < length (mdata st) ->
  take (midx (store v i j st)) (mdata (store v i j st)) =
  take (midx st) (mdata st) ++ [v].
Proof.
  intros Hlt. unfold store; simpl. rewrite Nat.add_1_r.
  erewrite take_S_r; [|apply list_lookup_insert_eq; exact Hlt].
  rewrite take_insert_ge by lia. reflexivity.
Qed.

Section Records.

Variables xs ys : aligned_t.

Lemma copy_xs_records n : forall st,
  len xs - fx st <= n ->
  midx st + (len xs - fx st) <= length (mdata st) ->
  take (midx (copy_xs xs st)) (mdata (copy_xs xs st)) =
  take (midx st) (mdata st) ++ drop (fx st) (data xs).
Proof.
  induction n as [|n IH]; intros st Hn Hcap; rewrite copy_xs_eq;
    destruct (data xs !! fx st) as [x|] eqn:Hx.
  - apply lookup_lt_Some in Hx. unfold len in Hn. lia.
  - apply lookup_ge_None in Hx. rewrite drop_ge, app_nil_r by lia. reflexivity.
  - pose proof (lookup_lt_Some _ _ _ Hx) as Hlt. unfold len in *.
    rewrite IH.
    + rewrite store_take by lia. rewrite (drop_S _ _ _ Hx), <- app_assoc.
      simpl. rewrite Nat.add_1_r. reflexivity.
    + simpl. lia.
    + unfold store; simpl. rewrite length_insert. lia.
  - apply lookup_ge_None in Hx. rewrite drop_ge, app_nil_r by lia. reflexivity.
Qed.

Lemma copy_ys_records n : forall st,
  len ys - fy st <= n ->
  midx st + (len ys - fy st) <= length (mdata st) ->
  take (midx (copy_ys ys st)) (mdata (copy_ys ys st)) =
  take (midx st) (mdata st) ++ drop (fy st) (data ys).
Proof.
  induction n as [|n IH]; intros st Hn Hcap; rewrite copy_ys_eq;
    destruct (data ys !! fy st) as [y|] eqn:Hy.
  - apply lookup_lt_Some in Hy. unfold len in Hn. lia.
  - apply lookup_ge_None in Hy. rewrite drop_ge, app_nil_r by lia. reflexivity.
  - pose proof (lookup_lt_Some _ _ _ Hy) as Hlt. unfold len in *.
    rewrite IH.
    + rewrite store_take by lia. rewrite (drop_S _ _ _ Hy), <- app_assoc.
      simpl. rewrite Nat.add_1_r. reflexivity.
    + simpl. lia.
    + unfold store; simpl. rewrite length_insert. lia.
  - apply lookup_ge_None in Hy. rewrite drop_ge, app_nil_r by lia. reflexivity.
Qed.

(** From any state of the construction loop on: the write index moves by
    the number of records still to emit. *)
Lemma finish_midx st :
  midx (finish xs ys (fill_both xs ys st)) =
  midx st +
  length (merged_records (drop (fx st) (data xs)) (drop (fy st) (data ys))).
Proof.
  induction st as [st IH] using (fill_induction xs ys).
  rewrite fill_both_eq.
  destruct (fill_step xs ys st) as [st'|] eqn:Hs.
  - rewrite (IH st' eq_refl). revert Hs. unfold fill_step.
    destruct (data xs !! fx st) as [x|] eqn:Hx; [|discriminate].
    destruct (data ys !! fy st) as [y|] eqn:Hy; [|discriminate].
    rewrite (drop_S _ _ _ Hx), (drop_S _ _ _ Hy), merged_records_cons.
    destruct (pos_cmp x y); intros [= <-]; simpl;
      rewrite ?Nat.add_1_r;
      try rewrite (drop_S _ _ _ Hx); try rewrite (drop_S _ _ _ Hy);
      simpl; lia.
  - unfold fill_step in Hs. unfold finish.
    destruct (data xs !! fx st) as [x|] eqn:Hx.
    + destruct (data ys !! fy st) as [y|] eqn:Hy;
        [destruct (pos_cmp x y); discriminate|].
      apply lookup_lt_Some in Hx. apply lookup_ge_None in Hy.
      rewrite (drop_ge (data ys)) by lia. rewrite merged_records_nil_r.
      destruct (Nat.ltb_spec (fx st) (len xs)); [|unfold len in *; lia].
      rewrite (copy_xs_midx xs (len xs)) by lia.
      rewrite length_drop. reflexivity.
    + apply lookup_ge_None in Hx. rewrite (drop_ge (data xs)) by lia. simpl.
      destruct (Nat.ltb_spec (fx st) (len xs)); [unfold len in *; lia|].
      destruct (Nat.ltb_spec (fy st) (len ys)).
      * rewrite (copy_ys_midx ys (len ys)) by lia.
        rewrite length_drop. reflexivity.
      * rewrite drop_ge by (unfold len in *; lia). simpl. lia.
Qed.

(** With room for them in the block, the cells written are those
    records, in order. *)
Lemma finish_records st :
  midx st +
  length (merged_records (drop (fx st) (data xs)) (drop (fy st) (data ys)))
    <= length (mdata st) ->
  let st' := finish xs ys (fill_both xs ys st) in
  take (midx st') (mdata st') =
  take (midx st) (mdata st) ++
  merged_records (drop (fx st) (data xs)) (drop (fy st) (data ys)).
Proof.
  induction st as [st IH] using (fill_induction xs ys). intros Hcap.
  rewrite fill_both_eq.
  destruct (fill_step xs ys st) as [st'|] eqn:Hs.
  - assert (Hnext :
      midx st < length (mdata st) /\
      exists v, take (midx st') (mdata st') = take (midx st) (mdata st) ++ [v] /\
                length (mdata st') = length (mdata st) /\
                midx st' = midx st + 1 /\
                merged_records (drop (fx st) (data xs)) (drop (fy st) (data ys)) =
                v :: merged_records (drop (fx st') (data xs))
                                    (drop (fy st') (data ys))).
    { revert Hs Hcap. unfold fill_step.
      destruct (data xs !! fx st) as [x|] eqn:Hx; [|discriminate].
      destruct (data ys !! fy st) as [y|] eqn:Hy; [|discriminate].
      rewrite (drop_S _ _ _ Hx), (drop_S _ _ _ Hy), merged_records_cons.
      destruct (pos_cmp x y); intros [= <-] Hcap; simpl in Hcap;
        (split; [lia|]); eexists; (split; [apply store_take; lia|]);
        unfold store; simpl; rewrite length_insert, ?Nat.add_1_r;
        try rewrite (drop_S _ _ _ Hx); try rewrite (drop_S _ _ _ Hy);
        auto with lia. }
    destruct Hnext as (Hlt & v & Htake & Hlen & Hm & Hrec).
    cbv zeta. rewrite (IH st' eq_refl).
    + rewrite Htake, Hrec, <- app_assoc. reflexivity.
    + rewrite Hlen, Hm. rewrite Hrec in Hcap. simpl in Hcap. lia.
  - cbv zeta. unfold fill_step in Hs. unfold finish. revert Hcap.
    destruct (data xs !! fx st) as [x|] eqn:Hx.
    + destruct (data ys !! fy st) as [y|] eqn:Hy;
        [destruct (pos_cmp x y); discriminate|].
      apply lookup_lt_Some in Hx. apply lookup_ge_None in Hy.
      rewrite (drop_ge (data ys)) by lia. rewrite merged_records_nil_r.
      rewrite length_drop. intros Hcap.
      destruct (Nat.ltb_spec (fx st) (len xs)); [|unfold len in *; lia].
      apply (copy_xs_records (len xs)); unfold len; lia.
    + apply lookup_ge_None in Hx. rewrite (drop_ge (data xs)) by lia. simpl.
      rewrite length_drop. intros Hcap.
      destruct (Nat.ltb_spec (fx st) (len xs)); [unfold len in *; lia|].
      destruct (Nat.ltb_spec (fy st) (len ys)).
      * apply (copy_ys_records (len ys)); unfold len; lia.
      * rewrite drop_ge by (unfold len in *; lia). rewrite app_nil_r.
        reflexivity.
Qed.

(** The whole second pass in a block of the right size. *)
Lemma fill_records blk :
  length blk = length (merged_records (data xs) (data ys)) ->
  mdata (fill xs ys blk) = merged_records (data xs) (data ys) /\
  midx (fill xs ys blk) = length blk /\
  oob (fill xs ys blk) = false.
Proof.
  intros Hlen.
  pose proof (finish_midx (mk_fill 0 0 0 blk false)) as Hm.
  pose proof (finish_records (mk_fill 0 0 0 blk false)) as Hr.
  destruct (fill_is_ok xs ys blk) as [Hl Ho].
  change (finish xs ys (fill_both xs ys (mk_fill 0 0 0 blk false)))
    with (fill xs ys blk) in *.
  simpl in Hm, Hr. rewrite !drop_0 in Hm, Hr.
  assert (Hmid : midx (fill xs ys blk) = length blk) by lia.
  specialize (Hr ltac:(lia)).
  rewrite Hmid, take_ge in Hr by lia.
  split; [exact Hr|]. split; [exact Hmid|].
  rewrite Ho, Hmid. apply Nat.ltb_irrefl.
Qed.

End Records.

(** After a first pass that reached its end, the second pass writes
    those records into the block of the predicted length. *)
Lemma fill_data xs ys args x0 y0 w0 w :
  data xs !! 0 = Some x0 -> data ys !! 0 = Some y0 ->
  overhang xs ys args x0 y0 = inr w0 ->
  walk xs ys args w0 = inr w ->
  mdata (fill xs ys (replicate (final_mlen xs ys w) uninit)) =
  merged_records (data xs) (data ys).
Proof.
  intros Hx Hy Hov Hw.
  set (n := final_mlen xs ys w).
  pose proof (fill_midx xs ys args x0 y0 w0 w (replicate n uninit) Hx Hy Hov Hw)
    as Hm.
  pose proof (finish_midx xs ys (mk_fill 0 0 0 (replicate n uninit) false)) as Hf.
  change (finish xs ys (fill_both xs ys (mk_fill 0 0 0 (replicate n uninit) false)))
    with (fill xs ys (replicate n uninit)) in Hf.
  simpl in Hf. rewrite !drop_0 in Hf. fold n in Hm.
  apply fill_records. rewrite length_replicate. lia.
Qed.

Lemma merge_two_data xs ys args alloc_ok m t :
  merge_two xs ys args alloc_ok = Success m t ->
  data m = merged_records (data xs) (data ys).
Proof.
  intros H. apply merge_two_Success in H.
  destruct H as (x0 & y0 & w0 & w & Hx & Hy & _ & Hov & Hw & _ & _ & -> & _).
  simpl. eapply fill_data; eassumption.
Qed.

(** X4.  On [SUCCESS] the array of the merged cluster holds exactly the
    records the two arrays give when they are merged as lists: the
    smaller current record while the two differ, one combined record
    when they compare [EQ], then the rest of the array that is left. *)
Theorem merge_two_records xs ys args alloc_ok m t :
  merge_two xs ys args alloc_ok = Success m t ->
  data m = merged_records (data xs) (data ys).
Proof.
  intros H. apply merge_two_Success in H.
  destruct H as (x0 & y0 & w0 & w & Hx & Hy & _ & Hov & Hw & _ & _ & -> & _).
  simpl. exact (fill_data xs ys args x0 y0 w0 w Hx Hy Hov Hw).
Qed.

Lemma merge_two_records_witness :
  data acg2 = merged_records (data acg) (data acg).
Proof.
  apply (merge_two_records acg acg (strict 2) true acg2 (mk_trace 3 3 3 false)).
  vm_compute. reflexivity.
Defined.

(** Induction along the cases of [merged_records]. *)
Lemma merged_records_cases (P : list pos_t -> list pos_t -> list pos_t -> Prop) :
  (forall ys, P [] ys ys) ->
  (forall x xs, P (x :: xs) [] (x :: xs)) ->
  (forall x xs y ys, pos_cmp x y = LT ->
     P xs (y :: ys) (merged_records xs (y :: ys)) ->
     P (x :: xs) (y :: ys) (x :: merged_records xs (y :: ys))) ->
  (forall x xs y ys, pos_cmp x y = GT ->
     P (x :: xs) ys (merged_records (x :: xs) ys) ->
     P (x :: xs) (y :: ys) (y :: merged_records (x :: xs) ys)) ->
  (forall x xs y ys, pos_cmp x y = EQ ->
     P xs ys (merged_records xs ys) ->
     P (x :: xs) (y :: ys) (combine x y :: merged_records xs ys)) ->
  forall xs ys, P xs ys (merged_records xs ys).
Proof.
  intros Hnil Hnil_r Hlt Hgt Heq.
  induction xs as [|x xs IHx]; intros ys; [apply Hnil|].
  induction ys as [|y ys IHy]; [apply Hnil_r|].
  rewrite merged_records_cons.
  destruct (pos_cmp x y) eqn:Hcmp; auto.
Qed.

Lemma merged_records_total_cov xs ys :
  total_cov (merged_records xs ys) = (total_cov xs + total_cov ys)%Z.
Proof.
  apply (merged_records_cases
           (fun xs ys r => total_cov r = (total_cov xs + total_cov ys)%Z));
    clear; intros; simpl in *; lia.
Qed.

Lemma merged_records_Forall (Q : pos_t -> Prop) xs ys :
  (forall x y, Q x -> Q y -> pos_cmp x y = EQ -> Q (combine x y)) ->
  Forall Q xs -> Forall Q ys -> Forall Q (merged_records xs ys).
Proof.
  intros Hc.
  apply (merged_records_cases
           (fun xs ys r => Forall Q xs -> Forall Q ys -> Forall Q r));
    clear xs ys; auto.
  - intros x xs y ys _ IH Hx Hy. inversion Hx; subst. constructor; auto.
  - intros x xs y ys _ IH Hx Hy. inversion Hy; subst. constructor; auto.
  - intros x xs y ys Hcmp IH Hx Hy. inversion Hx; inversion Hy; subst.
    constructor; auto.
Qed.

Lemma merged_records_keeps_xs xs ys x :
  x ∈ xs -> exists r, r ∈ merged_records xs ys /\ same_key r x.
Proof.
  revert x.
  apply (merged_records_cases
           (fun xs ys rs => forall x, x ∈ xs ->
                            exists r, r ∈ rs /\ same_key r x));
    clear xs ys.
  - intros ys x Hx. inversion Hx.
  - intros x xs x' Hx. exists x'. split; [exact Hx|split; reflexivity].
  - intros x xs y ys _ IH x' Hx. apply elem_of_cons in Hx as [-> | Hx].
    + exists x. split; [left|split; reflexivity].
    + destruct (IH x' Hx) as (r & Hr & Hk). exists r. split; [right|]; auto.
  - intros x xs y ys _ IH x' Hx.
    destruct (IH x' Hx) as (r & Hr & Hk). exists r. split; [right|]; auto.
  - intros x xs y ys _ IH x' Hx. apply elem_of_cons in Hx as [-> | Hx].
    + exists (combine x y). split; [left|split; reflexivity].
    + destruct (IH x' Hx) as (r & Hr & Hk). exists r. split; [right|]; auto.
Qed.

Lemma key_lt_trans x y z : key_lt x y -> key_lt y z -> key_lt x z.
Proof. unfold key_lt. lia. Qed.

Lemma merged_records_ascending xs ys :
  ascending xs -> ascending ys ->
  ascending (merged_records xs ys) /\
  forall a, HdRel key_lt a xs -> HdRel key_lt a ys ->
            HdRel key_lt a (merged_records xs ys).
Proof.
  unfold ascending.
  apply (merged_records_cases
           (fun xs ys r =>
              Sorted key_lt xs -> Sorted key_lt ys ->
              Sorted key_lt r /\
              forall a, HdRel key_lt a xs -> HdRel key_lt a ys ->
                        HdRel key_lt a r));
    clear xs ys; auto.
  - intros x xs y ys Hcmp IH Hx Hy.
    apply Sorted_inv in Hx as [Hxs Hhx].
    destruct (IH Hxs Hy) as [Hs Hh]. split.
    + constructor; [exact Hs|]. apply Hh; [exact Hhx|].
      constructor. apply pos_cmp_LT in Hcmp. left. exact Hcmp.
    + intros a Ha _. inversion Ha; subst. constructor. assumption.
  - intros x xs y ys Hcmp IH Hx Hy.
    apply Sorted_inv in Hy as [Hys Hhy].
    destruct (IH Hx Hys) as [Hs Hh]. split.
    + constructor; [exact Hs|]. apply Hh; [|exact Hhy].
      constructor. apply pos_cmp_GT in Hcmp. unfold key_lt. lia.
    + intros a _ Ha. inversion Ha; subst. constructor. assumption.
  - intros x xs y ys Hcmp IH Hx Hy.
    apply Sorted_inv in Hx as [Hxs Hhx]. apply Sorted_inv in Hy as [Hys Hhy].
    destruct (IH Hxs Hys) as [Hs Hh]. apply pos_cmp_EQ in Hcmp.
    split.
    + constructor; [exact Hs|]. apply Hh.
      * inversion Hhx; subst; constructor. unfold key_lt in *. simpl. lia.
      * inversion Hhy; subst; constructor. unfold key_lt in *. simpl. lia.
    + intros a Ha _. inversion Ha; subst. constructor.
      unfold key_lt in *. simpl. lia.
Qed.

(** X5.  On [SUCCESS] no coverage is lost or made up: the coverages of
    the merged cluster add up to those of the two inputs together. *)
Theorem merge_two_total_cov xs ys args alloc_ok m t :
  merge_two xs ys args alloc_ok = Success m t ->
  total_cov (data m) = (total_cov (data xs) + total_cov (data ys))%Z.
Proof.
  intros H. rewrite (merge_two_data _ _ _ _ _ _ H).
  apply merged_records_total_cov.
Qed.

Lemma merge_two_total_cov_witness :
  total_cov (data acg2) = (total_cov (data acg) + total_cov (data acg))%Z.
Proof.
  apply (merge_two_total_cov acg acg (strict 2) true acg2 (mk_trace 3 3 3 false)).
  vm_compute. reflexivity.
Defined.

(** X6.  [merge_two] keeps the order of the records: from two arrays in
    strictly ascending order of position it makes an array in strictly
    ascending order of position, whatever [pos_cmp] answers on ties. *)
Theorem merge_two_ascending xs ys args alloc_ok m t :
  ascending (data xs) -> ascending (data ys) ->
  merge_two xs ys args alloc_ok = Success m t ->
  ascending (data m).
Proof.
  intros Hx Hy H. rewrite (merge_two_data _ _ _ _ _ _ H).
  apply merged_records_ascending; assumption.
Qed.

Lemma merge_two_ascending_witness :
  ascending [mk_pos 4 0 10 1; mk_pos 5 0 21 1; mk_pos 5 1 30 1].
Proof.
  apply (merge_two_ascending with_ins from_ins (strict 1) true
           (mk_aligned [mk_pos 4 0 10 1; mk_pos 5 0 21 1; mk_pos 5 1 30 1]
                       4 5 2) (mk_trace 1 3 3 false)).
  - repeat constructor; unfold key_lt; simpl; lia.
  - repeat constructor.
  - vm_compute. reflexivity.
Defined.

Lemma merge_two_keeps_well_formed xs ys args alloc_ok m t :
  well_formed xs -> well_formed ys ->
  merge_two xs ys args alloc_ok = Success m t ->
  well_formed m /\ (2 <= ncontrib m)%Z /\ (lpos m <= rpos m)%Z.
Proof.
  intros (Hnx & Hax & Hwx & Hcx) (Hny & Hay & Hwy & Hcy) H.
  pose proof (merge_two_data _ _ _ _ _ _ H) as Hd.
  apply merge_two_Success in H.
  destruct H as (x0 & y0 & w0 & w & _ & _ & _ & _ & _ & _ & _ & Hm & _).
  assert (Hl : lpos m = Z.min (lpos xs) (lpos ys)) by (rewrite Hm; apply MIN_min).
  assert (Hr : rpos m = Z.max (rpos xs) (rpos ys)) by (rewrite Hm; apply MAX_max).
  assert (Hc : ncontrib m = (ncontrib xs + ncontrib ys)%Z)
    by (rewrite Hm; reflexivity).
  clear Hm.
  assert (Hw : within m).
  { unfold within in *. rewrite Hd, Hl, Hr.
    apply merged_records_Forall.
    - intros x y Hx Hy _. simpl. exact Hx.
    - eapply Forall_impl; [exact Hwx|]. simpl. intros. lia.
    - eapply Forall_impl; [exact Hwy|]. simpl. intros. lia. }
  assert (Hne : data m <> []).
  { rewrite Hd. destruct (data xs) as [|x xs']; [contradiction|].
    destruct (data ys) as [|y ys']; [contradiction|].
    rewrite merged_records_cons. destruct (pos_cmp x y); discriminate. }
  repeat split; try assumption; try lia.
  - rewrite Hd. apply merged_records_ascending; assumption.
  - destruct (data m) as [|p l] eqn:E; [contradiction|].
    unfold within in Hw. rewrite E in Hw. inversion Hw; subst. lia.
Qed.

(** X7.  [merge_two] keeps clusters well formed: when both inputs have
    their records in ascending order, their columns between their
    bounds and at least one read, so has the merged cluster, which has
    at least one record and at least two reads. *)
Theorem merge_two_well_formed xs ys args alloc_ok m t :
  well_formed xs -> well_formed ys ->
  merge_two xs ys args alloc_ok = Success m t ->
  well_formed m /\ (2 <= ncontrib m)%Z /\ (lpos m <= rpos m)%Z.
Proof.
  intros Hx Hy H.
  destruct (merge_two_keeps_well_formed xs ys args alloc_ok m t Hx Hy H)
    as (Hw & Hc & Hb).
  split; [exact Hw|]. split; [exact Hc | exact Hb].
Qed.

Lemma well_formed_acg : well_formed acg.
Proof.
  unfold well_formed, within, ascending. simpl.
  split; [discriminate|]. split; [|split; [|lia]].
  - repeat constructor; unfold key_lt; simpl; lia.
  - repeat constructor; simpl; lia.
Qed.

Lemma merge_two_well_formed_witness :
  well_formed acg2 /\ (2 <= ncontrib acg2)%Z /\ (lpos acg2 <= rpos acg2)%Z.
Proof.
  apply (merge_two_well_formed acg acg (strict 2) true acg2 (mk_trace 3 3 3 false)).
  - unfold well_formed, within, ascending. simpl.
    split; [discriminate|]. split; [|split; [|lia]].
    + repeat constructor; unfold key_lt; simpl; lia.
    + repeat constructor; simpl; lia.
  - unfold well_formed, within, ascending. simpl.
    split; [discriminate|]. split; [|split; [|lia]].
    + repeat constructor; unfold key_lt; simpl; lia.
    + repeat constructor; simpl; lia.
  - vm_compute. reflexivity.
Defined.

(** ** [merge_two]: the counters of the first pass *)

Section Counters.

Variables xs ys : aligned_t.
Variable args : args_t.

Lemma skip_xs_range y n : forall i cmp cmp' i',
  len xs - i <= n -> i < len xs ->
  skip_xs xs y cmp i = (cmp', i') -> i <= i' < len xs.
Proof.
  induction n as [|n IH]; intros i cmp cmp' i' Hn Hi; [lia|].
  rewrite skip_xs_eq.
  destruct cmp; try (intros [= <- <-]; lia).
  destruct (data xs !! (i + 1)) as [x1|] eqn:Hx1; [|intros [= <- <-]; lia].
  apply lookup_lt_Some in Hx1. fold (len xs) in Hx1.
  intros Hs. apply IH in Hs; lia.
Qed.

Lemma skip_ys_range x n : forall j cmp cmp' j',
  len ys - j <= n -> j < len ys ->
  skip_ys ys x cmp j = (cmp', j') -> j <= j' < len ys.
Proof.
  induction n as [|n IH]; intros j cmp cmp' j' Hn Hj; [lia|].
  rewrite skip_ys_eq.
  destruct cmp; try (intros [= <- <-]; lia).
  destruct (data ys !! (j + 1)) as [y1|] eqn:Hy1; [|intros [= <- <-]; lia].
  apply lookup_lt_Some in Hy1. fold (len ys) in Hy1.
  intros Hs. apply IH in Hs; lia.
Qed.

(** Where the walk starts: on records that exist, one of them the first
    of its array, nothing counted as overlap yet. *)
Lemma overhang_state x0 y0 w0 :
  data xs !! 0 = Some x0 -> data ys !! 0 = Some y0 ->
  overhang xs ys args x0 y0 = inr w0 ->
  overlap w0 = 0 /\ mlen w0 = xidx w0 + yidx w0 /\
  xidx w0 < len xs /\ yidx w0 < len ys /\
  (xidx w0 = 0 \/ yidx w0 = 0).
Proof.
  intros Hx Hy. apply lookup_lt_Some in Hx, Hy. fold (len xs) in Hx.
  fold (len ys) in Hy. unfold overhang.
  destruct (pos_cmp x0 y0).
  - destruct (skip_xs xs y0 LT 0) as [cmp i] eqn:Hs.
    apply (skip_xs_range y0 (len xs)) in Hs; [|lia|lia].
    destruct cmp; [|destruct (negb (tol_gaps args))|];
      intros [= <-]; simpl; lia.
  - destruct (skip_ys ys x0 GT 0) as [cmp j] eqn:Hs.
    apply (skip_ys_range x0 (len ys)) in Hs; [|lia|lia].
    destruct cmp; [|destruct (negb (tol_gaps args))|];
      intros [= <-]; simpl; lia.
  - intros [= <-]; simpl; lia.
Qed.

(** Every iteration moves [mlen] on by one and counts a record of each
    array it passes, twice when it counts an overlap. *)
Lemma walk_counters w w' :
  xidx w <= len xs -> yidx w <= len ys ->
  walk xs ys args w = inr w' ->
  mlen w' + overlap w' + xidx w + yidx w =
    mlen w + overlap w + xidx w' + yidx w' /\
  overlap w' + xidx w <= overlap w + xidx w' /\
  overlap w' + yidx w <= overlap w + yidx w' /\
  overlap w <= overlap w' /\
  xidx w' <= len xs /\ yidx w' <= len ys /\
  (xidx w' = len xs \/ yidx w' = len ys).
Proof.
  induction w as [w IH] using (walk_induction xs ys args).
  intros Hxi Hyi. rewrite walk_eq. unfold walk_step in *.
  destruct (data xs !! xidx w) as [x|] eqn:Hx.
  2:{ intros [= <-]. apply lookup_ge_None in Hx. unfold len in *. lia. }
  destruct (data ys !! yidx w) as [y|] eqn:Hy.
  2:{ intros [= <-]. apply lookup_ge_None in Hy. unfold len in *. lia. }
  apply lookup_lt_Some in Hx, Hy. fold (len xs) in Hx. fold (len ys) in Hy.
  destruct (pos_cmp x y).
  - destruct (negb (tol_gaps args)); [discriminate|]. intros Hw.
    apply (IH _ eq_refl) in Hw; simpl in *; lia.
  - destruct (negb (tol_gaps args)); [discriminate|]. intros Hw.
    apply (IH _ eq_refl) in Hw; simpl in *; lia.
  - destruct (compatible args x y); [|discriminate]. intros Hw.
    apply (IH _ eq_refl) in Hw; simpl in *; lia.
Qed.

End Counters.

(** X9.  On [SUCCESS] the lengths add up: the merged cluster has as many
    records as the two inputs together less the overlaps counted, the
    overlaps are at most the shorter of the two lengths, and so the
    merged cluster is at least as long as the longer input. *)
Theorem merge_two_lengths xs ys args alloc_ok m t :
  merge_two xs ys args alloc_ok = Success m t ->
  len m + t_overlap t = len xs + len ys /\
  t_overlap t <= Nat.min (len xs) (len ys) /\
  Nat.max (len xs) (len ys) <= len m.
Proof.
  intros H. apply merge_two_Success in H.
  destruct H as (x0 & y0 & w0 & w & Hx & Hy & _ & Hov & Hw & _ & _ & -> & ->).
  destruct (fill_is_ok xs ys (replicate (final_mlen xs ys w) uninit)) as [Hl _].
  rewrite length_replicate in Hl.
  destruct (overhang_state xs ys args x0 y0 w0 Hx Hy Hov)
    as (Ho0 & Hm0 & Hx0 & Hy0 & _).
  pose proof (walk_counters xs ys args w0 w ltac:(lia) ltac:(lia) Hw) as Hc.
  unfold len in *. simpl. rewrite Hl. unfold final_mlen, len.
  destruct (Nat.ltb_spec (xidx w) (length (data xs))),
    (Nat.ltb_spec (yidx w) (length (data ys))); lia.
Qed.

Lemma merge_two_lengths_witness :
  len acg2 + t_overlap (mk_trace 3 3 3 false) = len acg + len acg /\
  t_overlap (mk_trace 3 3 3 false) <= Nat.min (len acg) (len acg) /\
  Nat.max (len acg) (len acg) <= len acg2.
Proof.
  apply (merge_two_lengths acg acg (strict 2) true acg2 (mk_trace 3 3 3 false)).
  vm_compute. reflexivity.
Defined.

(** ** [merge_two] without tolerance for gaps *)

Section Strict.

Variables xs ys : aligned_t.
Variable args : args_t.
Hypothesis strict_gaps : tol_gaps args = false.

(** Without tolerance every iteration of the walk is an overlap. *)
Lemma walk_strict w w' :
  walk xs ys args w = inr w' ->
  exists n,
    xidx w' = xidx w + n /\ yidx w' = yidx w + n /\
    overlap w' = overlap w + n /\
    (forall k, k < n ->
       exists x y, data xs !! (xidx w + k) = Some x /\
                   data ys !! (yidx w + k) = Some y /\
                   pos_cmp x y = EQ /\ compatible args x y = true) /\
    (data xs !! xidx w' = None \/ data ys !! yidx w' = None).
Proof.
  induction w as [w IH] using (walk_induction xs ys args).
  rewrite walk_eq. unfold walk_step in *. rewrite strict_gaps in *. simpl in *.
  destruct (data xs !! xidx w) as [x|] eqn:Hx.
  2:{ intros [= <-]. exists 0. rewrite !Nat.add_0_r, Hx.
      repeat split; auto. intros k Hk. lia. }
  destruct (data ys !! yidx w) as [y|] eqn:Hy.
  2:{ intros [= <-]. exists 0. rewrite !Nat.add_0_r, Hy.
      repeat split; auto. intros k Hk. lia. }
  destruct (pos_cmp x y) eqn:Hcmp; try discriminate.
  destruct (compatible args x y) eqn:Hc; [|discriminate].
  intros Hw. destruct (IH _ eq_refl Hw) as (n & Hxn & Hyn & Hon & Hall & Hend).
  simpl in *. exists (S n). repeat split; try lia; [|exact Hend].
  intros [|k] Hk.
  - rewrite !Nat.add_0_r. exists x, y. auto.
  - destruct (Hall k ltac:(lia)) as (x' & y' & Hx' & Hy' & H').
    exists x', y'. replace (xidx w + S k) with (xidx w + 1 + k) by lia.
    replace (yidx w + S k) with (yidx w + 1 + k) by lia. auto.
Qed.

End Strict.

(** X10.  Without tolerance for gaps a [SUCCESS] means that the end of
    one array lies on the start of the other: from the first record of
    one cluster and some record of the other on, the records compare
    [EQ] and carry compatible codes pair by pair until one array ends;
    these pairs are the overlap counted, and there is at least one. *)
Theorem merge_two_strict xs ys args alloc_ok m t :
  tol_gaps args = false ->
  merge_two xs ys args alloc_ok = Success m t ->
  1 <= t_overlap t /\
  exists i j,
    (i = 0 \/ j = 0) /\
    (i + t_overlap t = len xs \/ j + t_overlap t = len ys) /\
    forall k, k < t_overlap t ->
      exists x y, data xs !! (i + k) = Some x /\ data ys !! (j + k) = Some y /\
                  pos_cmp x y = EQ /\ compatible args x y = true.
Proof.
  intros Hstrict H. apply merge_two_Success in H.
  destruct H as (x0 & y0 & w0 & w & Hx & Hy & _ & Hov & Hw & _ & _ & _ & ->).
  simpl.
  destruct (overhang_state xs ys args x0 y0 w0 Hx Hy Hov)
    as (Ho0 & _ & Hx0 & Hy0 & Hzero).
  destruct (walk_strict xs ys args Hstrict w0 w Hw)
    as (n & Hxn & Hyn & Hon & Hall & Hend).
  rewrite Hon, Ho0. simpl.
  assert (Hn : 1 <= n).
  { destruct n; [|lia]. rewrite Nat.add_0_r in Hxn, Hyn. rewrite Hxn, Hyn in Hend.
    destruct Hend as [He | He]; apply lookup_ge_None in He; unfold len in *; lia. }
  split; [exact Hn|]. exists (xidx w0), (yidx w0).
  split; [exact Hzero|]. split; [|exact Hall].
  destruct (Hall (n - 1) ltac:(lia)) as (x & y & Hlx & Hly & _).
  apply lookup_lt_Some in Hlx, Hly.
  rewrite Hxn, Hyn in Hend.
  destruct Hend as [He | He]; apply lookup_ge_None in He; unfold len; lia.
Qed.

Lemma merge_two_strict_witness :
  1 <= t_overlap (mk_trace 1 4 4 false) /\
  exists i j,
    (i = 0 \/ j = 0) /\
    (i + t_overlap (mk_trace 1 4 4 false) = len acg \/
     j + t_overlap (mk_trace 1 4 4 false) = len g_only) /\
    forall k, k < t_overlap (mk_trace 1 4 4 false) ->
      exists x y, data acg !! (i + k) = Some x /\
                  data g_only !! (j + k) = Some y /\
                  pos_cmp x y = EQ /\ compatible (strict 1) x y = true.
Proof.
  apply (merge_two_strict acg g_only (strict 1) true
           (mk_aligned [mk_pos 10 0 1 1; mk_pos 11 0 1 2; mk_pos 12 0 2 4;
                        mk_pos 13 0 1 1] 10 13 2)).
  - reflexivity.
  - vm_compute. reflexivity.
Defined.

(** ** [merge_two]: why a pair is turned down *)

Lemma overhang_msg_strict xs ys args x0 y0 msg :
  overhang xs ys args x0 y0 = inl msg -> tol_gaps args = false.
Proof.
  unfold overhang. destruct (pos_cmp x0 y0).
  - destruct (skip_xs xs y0 LT 0) as [[] i]; try discriminate.
    destruct (tol_gaps args); [discriminate|reflexivity].
  - destruct (skip_ys ys x0 GT 0) as [[] j]; try discriminate.
    destruct (tol_gaps args); [discriminate|reflexivity].
  - discriminate.
Qed.

Lemma walk_msg_tolerant xs ys args w msg :
  tol_gaps args = true -> walk xs ys args w = inl msg -> msg = mismatch.
Proof.
  intros Htol.
  induction w as [w IH] using (walk_induction xs ys args).
  rewrite walk_eq.
  destruct (walk_step xs ys args w) as [w1| |m] eqn:Hs;
    [apply (IH w1 eq_refl)|discriminate|].
  intros [= ->]. revert Hs. unfold walk_step. rewrite Htol. simpl.
  destruct (data xs !! xidx w) as [x|]; [|discriminate].
  destruct (data ys !! yidx w) as [y|]; [|discriminate].
  destruct (pos_cmp x y); try discriminate.
  destruct (compatible args x y); [discriminate|]. intros [= <-]. reflexivity.
Qed.

(** X11.  [merge_two] answers "insufficient length" exactly when one of
    the two clusters has no record; no other test gives that answer. *)
Theorem merge_two_insufficient_length xs ys args alloc_ok :
  merge_two xs ys args alloc_ok = Failure insufficient_length <->
  data xs = [] \/ data ys = [].
Proof.
  unfold merge_two. split.
  - destruct (data xs) as [|x0 xs']; [auto|].
    destruct (data ys) as [|y0 ys']; [auto|]. simpl lookup.
    destruct (_ && _); [discriminate|].
    destruct (overhang xs ys args x0 y0) as [msg|w0] eqn:Hov.
    { destruct (overhang_msg _ _ _ _ _ _ Hov) as [-> | ->]; discriminate. }
    destruct (walk xs ys args w0) as [msg|w] eqn:Hw.
    { destruct (walk_msg _ _ _ _ _ Hw) as [-> | [-> | ->]]; discriminate. }
    destruct (_ <? _)%Z; [discriminate|].
    destruct alloc_ok; discriminate.
  - intros [-> | ->]; [reflexivity|].
    destruct (data xs); reflexivity.
Qed.

Lemma merge_two_insufficient_length_witness :
  merge_two (aligned_destroy acg) ttt (strict 1) true
    = Failure insufficient_length.
Proof.
  apply (merge_two_insufficient_length (aligned_destroy acg) ttt (strict 1) true).
  left. reflexivity.
Defined.

(** X12.  With [tol_gaps] set no pair is turned down for a gap: the only
    answers left are those of an empty cluster, of the bounds, of a
    mismatch, of too small an overlap and of a failed allocation, the
    last one only when the allocation did fail. *)
Theorem merge_two_tolerant_failures xs ys args alloc_ok msg :
  tol_gaps args = true ->
  merge_two xs ys args alloc_ok = Failure msg ->
  msg = insufficient_length \/ msg = no_opportunity \/ msg = mismatch \/
  msg = insufficient_overlap \/
  (msg = memory_allocation_error /\ alloc_ok = false).
Proof.
  intros Htol. unfold merge_two.
  destruct (data xs !! 0) as [x0|]; [|intros [= <-]; auto].
  destruct (data ys !! 0) as [y0|]; [|intros [= <-]; auto].
  destruct (_ && _); [intros [= <-]; auto|].
  destruct (overhang xs ys args x0 y0) as [m|w0] eqn:Hov.
  { apply overhang_msg_strict in Hov. congruence. }
  destruct (walk xs ys args w0) as [m|w] eqn:Hw.
  { apply (walk_msg_tolerant _ _ _ _ _ Htol) in Hw. intros [= <-]. auto. }
  destruct (_ <? _)%Z; [intros [= <-]; auto 6|].
  destruct alloc_ok; [discriminate|]. intros [= <-]. auto 6.
Qed.

Lemma merge_two_tolerant_failures_witness :
  mismatch = insufficient_length \/ mismatch = no_opportunity \/
  mismatch = mismatch \/ mismatch = insufficient_overlap \/
  (mismatch = memory_allocation_error /\ true = false).
Proof.
  apply (merge_two_tolerant_failures acg ttt (lenient 1) true mismatch).
  - reflexivity.
  - vm_compute. reflexivity.
Defined.

(** ** [merge_two]: a cluster against itself *)

Lemma combine_self x : combine x x = double x.
Proof. unfold combine, double, MIN. rewrite Z.ltb_irrefl. reflexivity. Qed.

Lemma merged_records_self l : merged_records l l = map double l.
Proof.
  induction l as [|x l IH]; [reflexivity|].
  rewrite merged_records_cons.
  rewrite (proj2 (pos_cmp_EQ x x)) by lia.
  rewrite combine_self, IH. reflexivity.
Qed.

Lemma walk_self xs args n : forall k,
  len xs - k <= n -> k <= len xs ->
  walk xs xs args (mk_walk k k k k) =
  inr (mk_walk (len xs) (len xs) (len xs) (len xs)).
Proof.
  induction n as [|n IH]; intros k Hn Hk; rewrite walk_eq; unfold walk_step;
    simpl; destruct (data xs !! k) as [x|] eqn:Hx.
  - apply lookup_lt_Some in Hx. unfold len in *. lia.
  - replace k with (len xs) by lia. reflexivity.
  - apply lookup_lt_Some in Hx.
    rewrite (proj2 (pos_cmp_EQ x x)) by lia.
    rewrite (proj2 (compatible_spec args x x)) by auto.
    apply IH; unfold len in *; lia.
  - apply lookup_ge_None in Hx. replace k with (len xs) by (unfold len in *; lia).
    reflexivity.
Qed.

(** X13.  A cluster against itself, the allocation succeeding: turned
    down by the test on the bounds when it spans fewer than
    [min_overlap] columns beyond its first, turned down for its overlap
    when it has fewer than [min_overlap] records, and merged otherwise
    into the same positions with every coverage and the number of reads
    counted twice, all its records counted as overlap. *)
Theorem merge_two_self xs args :
  data xs <> [] ->
  merge_two xs xs args true =
  if (rpos xs <? lpos xs + min_overlap args)%Z then Failure no_opportunity
  else if (Z.of_nat (len xs) <? min_overlap args)%Z
       then Failure insufficient_overlap
       else Success (mk_aligned (map double (data xs)) (lpos xs) (rpos xs)
                                (ncontrib xs + ncontrib xs))
                    (mk_trace (len xs) (len xs) (len xs) false).
Proof.
  intros Hne. unfold merge_two.
  destruct (data xs !! 0) as [x0|] eqn:Hx0.
  2:{ apply lookup_ge_None in Hx0. destruct (data xs); [contradiction|].
      simpl in Hx0. lia. }
  rewrite andb_diag.
  destruct (rpos xs <? lpos xs + min_overlap args)%Z; [reflexivity|].
  unfold overhang. rewrite (proj2 (pos_cmp_EQ x0 x0)) by lia.
  rewrite (walk_self xs args (len xs) 0) by lia. simpl overlap.
  destruct (Z.of_nat (len xs) <? min_overlap args)%Z; [reflexivity|].
  unfold final_mlen. simpl. rewrite Nat.ltb_irrefl. simpl.
  destruct (fill_records xs xs (replicate (len xs) uninit)) as (Hd & Hm & Ho).
  { rewrite merged_records_self, length_replicate, length_map. reflexivity. }
  rewrite Hd, Hm, Ho, merged_records_self, length_replicate.
  unfold MIN, MAX. rewrite Z.ltb_irrefl.
  destruct (rpos xs >? rpos xs)%Z; reflexivity.
Qed.

Lemma merge_two_self_witness :
  merge_two acg acg (strict 3) true = Failure no_opportunity /\
  merge_two acg acg (strict 2) true =
    Success (mk_aligned (map double (data acg)) 10 12 2) (mk_trace 3 3 3 false).
Proof.
  split.
  - apply (merge_two_self acg (strict 3)). discriminate.
  - apply (merge_two_self acg (strict 2)). discriminate.
Defined.

(** ** [merge_clusters]: what becomes of the vector *)

Lemma erase_literal (l1 l2 l3 : list aligned_t) a b m da db :
  delete (length l1 + S (length l2))
    (<[length l1 := m]>
       (<[length l1 + S (length l2) := db]>
          (<[length l1 := da]> (l1 ++ a :: l2 ++ b :: l3)))) =
  l1 ++ m :: l2 ++ l3.
Proof.
  induction l1 as [|c l1 IH]; simpl.
  - f_equal. induction l2 as [|c l2 IH2]; simpl; [reflexivity|].
    f_equal. exact IH2.
  - f_equal. exact IH.
Qed.

Lemma erase_shape (cs : list aligned_t) i j a b :
  cs !! i = Some a -> cs !! j = Some b -> i < j ->
  exists l1 l2 l3,
    cs = l1 ++ a :: l2 ++ b :: l3 /\
    forall m da db,
      delete j (<[i := m]> (<[j := db]> (<[i := da]> cs))) =
      l1 ++ m :: l2 ++ l3.
Proof.
  intros Ha Hb Hij.
  pose proof (lookup_lt_Some _ _ _ Ha) as Hi.
  pose proof (lookup_lt_Some _ _ _ Hb) as Hj.
  set (rest := drop (S i) cs).
  assert (Hb' : rest !! (j - S i) = Some b).
  { unfold rest. rewrite lookup_drop. replace (S i + (j - S i)) with j by lia.
    exact Hb. }
  exists (take i cs), (take (j - S i) rest), (drop (S (j - S i)) rest).
  assert (Hcs : cs = take i cs ++ a :: take (j - S i) rest ++
                       b :: drop (S (j - S i)) rest).
  { rewrite (take_drop_middle rest _ b Hb'). unfold rest.
    rewrite (take_drop_middle cs i a Ha). reflexivity. }
  split; [exact Hcs|].
  intros m da db.
  assert (Hl1 : i = length (take i cs)) by (rewrite length_take; lia).
  assert (Hl2 : j = length (take i cs) + S (length (take (j - S i) rest))).
  { apply lookup_lt_Some in Hb'. rewrite !length_take. lia. }
  revert Hcs Hl1 Hl2.
  generalize (take i cs) (take (j - S i) rest) (drop (S (j - S i)) rest).
  intros l1 l2 l3 -> -> ->. apply erase_literal.
Qed.

Lemma consolidates_trans merge cs1 cs2 cs3 :
  consolidates merge cs1 cs2 -> consolidates merge cs2 cs3 ->
  consolidates merge cs1 cs3.
Proof.
  induction 1; intros H3; [exact H3| |].
  - eapply consolidates_perm; eauto.
  - eapply consolidates_merge; eauto.
Qed.

Section Run.

Variable merge : nat -> aligned_t -> aligned_t -> res_t * aligned_t.
Context {sorter : Sorter}.
Variable args : args_t.

Lemma scan_run fuel : forall i j s r,
  scan merge fuel i j s = Some r -> i < j ->
  consolidates merge (clusters s) (clusters (state_of r)) /\
  (repeat s = true -> repeat (state_of r) = true) /\
  match r with
  | Return v _ => error_reported merge v
  | Fall s' =>
      nclusters s' = nclusters s /\
      (repeat s' = false ->
       clusters s' = clusters s /\
       calls s' = calls s + (length (clusters s) - j) /\
       forall a b jb,
         clusters s !! i = Some a -> clusters s !! jb = Some b -> j <= jb ->
         (merge (calls s + (jb - j)) a b).1 = FAILURE)
  end.
Proof.
  induction fuel as [|fuel IH]; intros i j s r; simpl; [discriminate|].
  destruct (clusters s !! j) as [b|] eqn:Hb.
  2:{ intros [= <-] Hij. simpl. split; [constructor|]. split; [auto|].
      split; [reflexivity|]. intros _. apply lookup_ge_None in Hb.
      split; [reflexivity|]. split; [lia|].
      intros a b jb _ Hjb Hle. apply lookup_lt_Some in Hjb. lia. }
  pose proof (lookup_lt_Some _ _ _ Hb) as Hj.
  destruct (clusters s !! i) as [a|] eqn:Ha; [|discriminate].
  destruct (merge (calls s) a b) as [[] merged] eqn:Hm.
  - (* SUCCESS *)
    intros Hrun Hij.
    destruct (erase_shape _ _ _ _ _ Ha Hb Hij) as (l1 & l2 & l3 & Hcs & Hshape).
    apply IH in Hrun; [|lia]. simpl in Hrun.
    rewrite Hshape in Hrun. destruct Hrun as (Hcons & Hrep & Hr).
    split; [rewrite Hcs; eapply consolidates_merge; eauto|].
    split; [auto|].
    destruct r as [s'|v s']; [|exact Hr].
    destruct Hr as [Hn _]. split; [exact Hn|].
    intros Hfalse. simpl in Hrep. rewrite Hrep in Hfalse by reflexivity.
    discriminate.
  - (* FAILURE *)
    intros Hrun Hij. apply IH in Hrun; [|lia]. simpl in Hrun.
    destruct Hrun as (Hcons & Hrep & Hr).
    split; [exact Hcons|]. split; [exact Hrep|].
    destruct r as [s'|v s']; [|exact Hr].
    destruct Hr as [Hn Hq]. split; [exact Hn|].
    intros Hfalse. destruct (Hq Hfalse) as (Hsame & Hcalls & Hlater).
    split; [exact Hsame|]. split; [lia|].
    intros a' b' jb Ha' Hjb Hle.
    assert (a' = a) as -> by congruence.
    destruct (decide (jb = j)) as [-> | Hne].
    + assert (b' = b) as -> by congruence.
      rewrite Nat.sub_diag, Nat.add_0_r, Hm. reflexivity.
    + replace (calls s + (jb - j)) with (calls s + 1 + (jb - (j + 1))) by lia.
      apply (Hlater a b' jb Ha Hjb). lia.
  - (* ERROR *)
    intros [= <-] Hij. simpl. split; [constructor|]. split; [auto|].
    split; [reflexivity|]. eauto.
Qed.

Lemma supported_cons a cs :
  supported args (a :: cs) =
  if (ncontrib a >=? min_reads args)%Z then (supported args cs + 1)%Z
  else supported args cs.
Proof. reflexivity. Qed.

Lemma pairs_before_S n i :
  pairs_before n (i + 1) = pairs_before n i + (n - (i + 1)).
Proof. rewrite Nat.add_1_r. simpl. lia. Qed.

Lemma pairs_before_closed n i :
  i <= n -> 2 * pairs_before n i + i * i + i = 2 * i * n.
Proof.
  induction i as [|i IH]; intros Hi; simpl; [lia|].
  specialize (IH ltac:(lia)). nia.
Qed.

(** A pass over [n] clusters in which nothing merges makes n (n - 1) / 2
    calls. *)
Lemma pairs_closed n : 2 * pairs n = n * (n - 1).
Proof.
  unfold pairs. pose proof (pairs_before_closed n n (le_n n)). nia.
Qed.

Lemma count_calls a s :
  calls (count args a s) = calls s /\ repeat (count args a s) = repeat s.
Proof.
  unfold count. destruct (ncontrib a >=? min_reads args)%Z; split; reflexivity.
Qed.

Lemma pass_run fuel : forall i s r,
  pass merge args fuel i s = Some r ->
  consolidates merge (clusters s) (clusters (state_of r)) /\
  (repeat s = true -> repeat (state_of r) = true) /\
  match r with
  | Return v _ => error_reported merge v
  | Fall s' =>
      repeat s' = false ->
      clusters s' = clusters s /\
      nclusters s' = (nclusters s + supported args (drop i (clusters s)))%Z /\
      forall c0,
        calls s = c0 + pairs_before (length (clusters s)) i ->
        i <= length (clusters s) ->
        calls s' = c0 + pairs (length (clusters s)) /\
        stable_from merge c0 i (clusters s)
  end.
Proof.
  induction fuel as [|fuel IH]; intros i s r; simpl; [discriminate|].
  destruct (clusters s !! i) as [a0|] eqn:Ha0.
  2:{ intros [= <-]. simpl. split; [constructor|]. split; [auto|].
      intros _. apply lookup_ge_None in Ha0.
      split; [reflexivity|]. split.
      - rewrite drop_ge by lia. simpl. lia.
      - intros c0 Hc0 Hi. assert (i = length (clusters s)) as Hn by lia.
        split; [unfold pairs; rewrite <- Hn at 2; exact Hc0|].
        intros ia ib a b Hia Hlt Ha _. apply lookup_lt_Some in Ha. lia. }
  destruct (scan merge fuel i (i + 1) s) as [r1|] eqn:Hscan; [|discriminate].
  apply scan_run in Hscan; [|lia]. destruct Hscan as (Hc1 & Hrep1 & Hr1).
  destruct r1 as [s1|v1 s1].
  2:{ intros [= <-]. simpl in *. auto. }
  simpl in Hc1, Hrep1. destruct Hr1 as [Hn1 Hq1].
  destruct (clusters s1 !! i) as [a|] eqn:Ha; [|discriminate].
  intros Hrun. apply IH in Hrun.
  destruct Hrun as (Hc2 & Hrep2 & Hr2).
  destruct (count_nclusters args a s1) as [_ Hcs].
  destruct (count_calls a s1) as [Hcc Hcrep].
  rewrite Hcs in Hc2. rewrite Hcrep in Hrep2.
  split; [eapply consolidates_trans; eassumption|].
  split; [auto|].
  destruct r as [s'|v s']; [|exact Hr2].
  intros Hfalse. simpl in Hrep2.
  assert (Hf1 : repeat s1 = false).
  { destruct (repeat s1); [|reflexivity]. rewrite Hrep2 in Hfalse; auto. }
  destruct (Hq1 Hf1) as (Hsame1 & Hcalls1 & Hlater).
  destruct (Hr2 Hfalse) as (Hsame2 & Hn2 & Hst).
  rewrite Hcs, Hsame1 in Hsame2, Hn2, Hst. rewrite Hsame1 in Ha.
  rewrite Hcc, Hcalls1 in Hst.
  split; [exact Hsame2|]. split.
  - rewrite Hn2, (drop_S _ _ _ Ha), supported_cons, Nat.add_1_r.
    unfold count. rewrite <- Hn1.
    destruct (ncontrib a >=? min_reads args)%Z; simpl; lia.
  - intros c0 Hc0 Hi. pose proof (lookup_lt_Some _ _ _ Ha) as Hlt.
    destruct (Hst c0) as [Hend Hrest].
    { rewrite pairs_before_S. lia. }
    { lia. }
    split; [exact Hend|].
    intros ia ib a' b' Hia Hib Ha' Hb'.
    destruct (decide (ia = i)) as [-> | Hne].
    + unfold call_of. rewrite Nat.add_assoc, <- Hc0.
      apply (Hlater a' b' ib); auto. lia.
    + apply (Hrest ia ib a' b'); auto. lia.
Qed.

Lemma outer_run fuel : forall s v s',
  outer merge args fuel s = Some (v, s') ->
  consolidates merge (clusters s) (clusters s') /\
  (error_reported merge v \/ settled merge args v s').
Proof.
  induction fuel as [|fuel IH]; intros s v s'; simpl; [discriminate|].
  set (s1 := mk_agg _ _ _ _ _ _).
  assert (Hperm : consolidates merge (clusters s) (clusters s1)).
  { eapply consolidates_perm; [|constructor]. symmetry. apply sort_perm. }
  destruct (pass merge args fuel 0 s1) as [r|] eqn:Hpass; [|discriminate].
  apply pass_run in Hpass. destruct Hpass as (Hc & _ & Hr).
  destruct r as [s2|v2 s2]; simpl in Hc.
  2:{ intros [= <- <-]. split; [eapply consolidates_trans; eassumption|].
      left. exact Hr. }
  destruct (repeat s2) eqn:Hrep.
  - intros Hrun. apply IH in Hrun. destruct Hrun as [Hc2 Hend].
    split; [|exact Hend].
    eapply consolidates_trans; [exact Hperm|].
    eapply consolidates_trans; eassumption.
  - intros [= <- <-]. split; [eapply consolidates_trans; eassumption|].
    right. destruct (Hr eq_refl) as (Hsame & Hn & Hst).
    destruct (Hst (calls s)) as [Hend Hstable].
    { subst s1. simpl. lia. }
    { lia. }
    subst s1. simpl in Hsame, Hn, Hend, Hstable. rewrite drop_0 in Hn.
    rewrite <- Hsame in Hn, Hend, Hstable.
    split; [exact Hrep|]. split; [lia|].
    split; [exists (clusters s); exact Hsame|].
    exists (calls s). split; [exact Hend | exact Hstable].
Qed.

End Run.

(** *** The run on [merge_two] *)

Lemma merge_two_call_SUCCESS args a b ok m :
  merge_two_call args a b ok = (SUCCESS, m) ->
  exists t, merge_two a b args ok = Success m t.
Proof.
  unfold merge_two_call. destruct (merge_two a b args ok) as [m' t|msg];
    [|discriminate].
  intros [= <-]. eauto.
Qed.

Lemma merge_two_call_FAILURE args a b ok :
  (merge_two_call args a b ok).1 = FAILURE ->
  exists msg, merge_two a b args ok = Failure msg.
Proof.
  unfold merge_two_call. destruct (merge_two a b args ok) as [m' t|msg];
    [discriminate|eauto].
Qed.

Lemma merge_clusters_run `{Sorter} alloc args cs :
  exists v s,
    merge_clusters alloc args (enough (length cs)) cs = Some (v, s) /\
    consolidates (fun k a b => merge_two_call args a b (alloc k))
                 cs (clusters s) /\
    settled (fun k a b => merge_two_call args a b (alloc k)) args v s.
Proof.
  destruct (merge_clusters_with_returns
              (fun k a b => merge_two_call args a b (alloc k)) args cs)
    as (v & s & _ & Hall).
  specialize (Hall (enough (length cs)) ltac:(lia)).
  exists v, s. split; [exact Hall|].
  apply outer_run in Hall. destruct Hall as [Hc [Herr | Hset]]; [|auto].
  destruct Herr as (_ & k & a & b & m & Hm).
  exfalso. exact (merge_two_call_not_ERROR _ _ _ _ _ Hm).
Qed.

Lemma consolidates_invariant merge (Q : list aligned_t -> Prop) cs cs' :
  (forall l l', l ≡ₚ l' -> Q l -> Q l') ->
  (forall l1 a l2 b l3 k m,
     merge k a b = (SUCCESS, m) ->
     Q (l1 ++ a :: l2 ++ b :: l3) -> Q (l1 ++ m :: l2 ++ l3)) ->
  consolidates merge cs cs' -> Q cs -> Q cs'.
Proof.
  intros Hperm Hmerge. induction 1; eauto.
Qed.

Lemma total_reads_app l1 l2 :
  total_reads (l1 ++ l2) = (total_reads l1 + total_reads l2)%Z.
Proof. induction l1; simpl; lia. Qed.

Lemma total_reads_perm l l' : l ≡ₚ l' -> total_reads l = total_reads l'.
Proof. induction 1; simpl; lia. Qed.

Lemma total_coverage_app l1 l2 :
  total_coverage (l1 ++ l2) = (total_coverage l1 + total_coverage l2)%Z.
Proof. induction l1; simpl; lia. Qed.

Lemma total_coverage_perm l l' : l ≡ₚ l' -> total_coverage l = total_coverage l'.
Proof. induction 1; simpl; lia. Qed.

(** X14.  [merge_clusters] only reorders and merges: the vector it
    returns with is reached from the one it was given by reorderings and
    by steps that put the merged cluster in the place of a cluster [a],
    and take out a later cluster [b], for which [merge_two] answered
    [SUCCESS]. *)
Theorem merge_clusters_consolidates `{Sorter} alloc args cs :
  exists v s,
    merge_clusters alloc args (enough (length cs)) cs = Some (v, s) /\
    consolidates (fun k a b => merge_two_call args a b (alloc k))
                 cs (clusters s).
Proof.
  destruct (merge_clusters_run alloc args cs) as (v & s & Hrun & Hc & _).
  exists v, s. split; assumption.
Qed.

(** X15.  [merge_clusters] loses no read: the numbers of reads of the
    clusters it returns with add up to those of the clusters it was
    given. *)
Theorem merge_clusters_total_reads `{Sorter} alloc args cs :
  exists v s,
    merge_clusters alloc args (enough (length cs)) cs = Some (v, s) /\
    total_reads (clusters s) = total_reads cs.
Proof.
  destruct (merge_clusters_run alloc args cs) as (v & s & Hrun & Hc & _).
  exists v, s. split; [exact Hrun|].
  apply (consolidates_invariant _ (fun l => total_reads l = total_reads cs)
           _ _) in Hc; auto.
  - intros l l' Hp <-. symmetry. apply total_reads_perm. exact Hp.
  - intros l1 a l2 b l3 k m Hm <-.
    apply merge_two_call_SUCCESS in Hm as [t Hm].
    apply merge_two_Success in Hm.
    destruct Hm as (x0 & y0 & w0 & w & _ & _ & _ & _ & _ & _ & _ & -> & _).
    rewrite !total_reads_app. simpl. rewrite !total_reads_app. simpl. lia.
Qed.

(** X16.  [merge_clusters] loses no coverage: the coverages of all the
    records of the clusters it returns with add up to those of the
    clusters it was given. *)
Theorem merge_clusters_total_coverage `{Sorter} alloc args cs :
  exists v s,
    merge_clusters alloc args (enough (length cs)) cs = Some (v, s) /\
    total_coverage (clusters s) = total_coverage cs.
Proof.
  destruct (merge_clusters_run alloc args cs) as (v & s & Hrun & Hc & _).
  exists v, s. split; [exact Hrun|].
  apply (consolidates_invariant _ (fun l => total_coverage l = total_coverage cs)
           _ _) in Hc; auto.
  - intros l l' Hp <-. symmetry. apply total_coverage_perm. exact Hp.
  - intros l1 a l2 b l3 k m Hm <-.
    apply merge_two_call_SUCCESS in Hm as [t Hm].
    apply merge_two_data in Hm.
    rewrite !total_coverage_app. simpl. rewrite !total_coverage_app. simpl.
    rewrite Hm, merged_records_total_cov. lia.
Qed.

Lemma well_formed_ttt : well_formed ttt.
Proof.
  unfold well_formed, within, ascending. simpl.
  split; [discriminate|]. split; [|split; [|lia]].
  - repeat constructor; unfold key_lt; simpl; lia.
  - repeat constructor; simpl; lia.
Qed.

(** X17.  [merge_clusters] keeps the clusters well formed: given clusters
    that all have their records in ascending order, their columns
    between their bounds and at least one read, it returns with
    clusters that all have. *)
Theorem merge_clusters_well_formed `{Sorter} alloc args cs :
  Forall well_formed cs ->
  exists v s,
    merge_clusters alloc args (enough (length cs)) cs = Some (v, s) /\
    Forall well_formed (clusters s).
Proof.
  intros Hwf.
  destruct (merge_clusters_run alloc args cs) as (v & s & Hrun & Hc & _).
  exists v, s. split; [exact Hrun|].
  apply (consolidates_invariant _ (Forall well_formed) _ _) in Hc; auto.
  - intros l l' Hp Hl. rewrite <- Hp. exact Hl.
  - intros l1 a l2 b l3 k m Hm Hl.
    apply merge_two_call_SUCCESS in Hm as [t Hm].
    apply Forall_app in Hl as [H1 Hl]. apply Forall_cons in Hl as [Ha Hl].
    apply Forall_app in Hl as [H2 Hl]. apply Forall_cons in Hl as [Hb H3].
    apply Forall_app. split; [exact H1|]. apply Forall_cons.
    split; [|apply Forall_app; split; assumption].
    apply (merge_two_keeps_well_formed a b args (alloc k) m t Ha Hb Hm).
Qed.

Lemma merge_clusters_well_formed_witness :
  exists v s,
    merge_clusters (fun _ => true) (strict 2) (enough 4) [acg; acg; acg; ttt]
      = Some (v, s) /\
    Forall well_formed (clusters s).
Proof.
  apply (merge_clusters_well_formed (fun _ => true) (strict 2)
           [acg; acg; acg; ttt]).
  repeat (apply List.Forall_cons;
          [first [apply well_formed_acg | apply well_formed_ttt]|]).
  apply List.Forall_nil.
Defined.

(** X18.  What [merge_clusters] returns: the number of clusters of the
    final vector that have [min_reads] reads or more, a number between 0
    and the length of that vector; and the final vector is in the order
    of the last sort, no cluster having fewer reads than a later one. *)
Theorem merge_clusters_result `{Sorter} alloc args cs :
  exists v s,
    merge_clusters alloc args (enough (length cs)) cs = Some (v, s) /\
    v = supported args (clusters s) /\
    (0 <= v <= Z.of_nat (length (clusters s)))%Z /\
    forall i j x y,
      clusters s !! i = Some x -> clusters s !! j = Some y -> i < j ->
      (ncontrib y <= ncontrib x)%Z.
Proof.
  destruct (merge_clusters_run alloc args cs)
    as (v & s & Hrun & _ & _ & Hv & (cs0 & Hs) & _).
  exists v, s. split; [exact Hrun|]. split; [exact Hv|]. split.
  - rewrite Hv. clear. induction (clusters s) as [|a l IH]; simpl; [lia|].
    destruct (ncontrib a >=? min_reads args)%Z; lia.
  - intros i j x y Hi Hj Hlt. rewrite Hs in Hi, Hj.
    pose proof (sort_sorted cs0 i j x y Hi Hj Hlt) as Hcmp.
    unfold ncontrib_cmp in Hcmp.
    destruct (Z.gtb_spec (ncontrib y) (ncontrib x)); [discriminate|lia].
Qed.

Lemma merge_clusters_result_witness :
  exists v s,
    merge_clusters (fun _ => true) (strict 2) (enough 4) [acg; acg; acg; ttt]
      = Some (v, s) /\
    v = supported (strict 2) (clusters s).
Proof.
  destruct (merge_clusters_result (fun _ => true) (strict 2)
              [acg; acg; acg; ttt]) as (v & s & Hrun & Hv & _).
  exists v, s. split; assumption.
Defined.

(** X19.  [merge_clusters] returns after a pass in which it tried every
    pair: of any two clusters of the final vector the earlier was given
    to [merge_two] with the later, at call [call_of n i j] of the last
    pass for the clusters at positions [i < j] of the [n] left, and that
    call returned [FAILURE].  The last pass is made of the last [pairs n]
    calls. *)
Theorem merge_clusters_stable `{Sorter} alloc args cs :
  exists v s,
    merge_clusters alloc args (enough (length cs)) cs = Some (v, s) /\
    calls s = last_pass s + pairs (length (clusters s)) /\
    forall i j a b,
      i < j -> clusters s !! i = Some a -> clusters s !! j = Some b ->
      exists msg,
        merge_two a b args
          (alloc (last_pass s + call_of (length (clusters s)) i j))
        = Failure msg.
Proof.
  destruct (merge_clusters_run alloc args cs)
    as (v & s & Hrun & _ & _ & _ & _ & c0 & Hc0 & Hst).
  assert (Hlast : last_pass s = c0) by (unfold last_pass; lia).
  exists v, s. split; [exact Hrun|]. rewrite Hlast. split; [exact Hc0|].
  intros i j a b Hlt Ha Hb.
  apply merge_two_call_FAILURE.
  exact (Hst i j a b ltac:(lia) Hlt Ha Hb).
Qed.

Lemma merge_clusters_stable_witness :
  exists v s,
    merge_clusters (fun k => negb (k =? 0)) (strict 2) (enough 2) [acg; acg]
      = Some (v, s) /\
    exists msg,
      merge_two acg acg (strict 2)
        (negb (last_pass s + call_of (length (clusters s)) 0 1 =? 0))
      = Failure msg.
Proof.
  destruct (merge_clusters_stable (fun k => negb (k =? 0)) (strict 2)
              [acg; acg]) as (v & s & Hrun & _ & Hst).
  exists v, s. split; [exact Hrun|].
  assert (Hs : clusters s = [acg; acg]).
  { revert Hrun. vm_compute. intros [= _ <-]. reflexivity. }
  apply (Hst 0 1 acg acg); [lia | rewrite Hs; reflexivity
                                | rewrite Hs; reflexivity].
Defined.

(** X20.  What [merge_clusters] does with a merger that reports [ERROR]
    at its first call: it returns -1 at once, after that one call, the
    vector sorted and otherwise untouched, nothing counted. *)
Theorem merge_clusters_first_ERROR `{Sorter} merge args fuel cs :
  (forall a b, (merge 0 a b).1 = ERROR) ->
  2 <= length cs -> 3 <= fuel ->
  merge_clusters_with merge args fuel cs =
  Some ((-1)%Z, mk_agg (sort cs) 0 false 1 0 1).
Proof.
  intros Herr Hlen Hfuel.
  destruct fuel as [|[|[|fuel]]]; try lia.
  unfold merge_clusters_with. simpl.
  assert (Hl : length (sort cs) = length cs)
    by (apply Permutation_length, sort_perm).
  destruct (sort cs) as [|a [|b l]] eqn:Hs; simpl in Hl; try lia.
  simpl. specialize (Herr a b).
  destruct (merge 0 a b) as [[] m]; simpl in Herr; try discriminate.
  reflexivity.
Qed.

Lemma merge_clusters_first_ERROR_witness :
  merge_clusters_with (fun _ _ _ => (ERROR, merged_init)) (strict 2) 3
                      [acg; ttt] =
  Some ((-1)%Z, mk_agg (sort [acg; ttt]) 0 false 1 0 1).
Proof.
  apply (merge_clusters_first_ERROR (fun _ _ _ => (ERROR, merged_init))
           (strict 2) 3 [acg; ttt]).
  - reflexivity.
  - simpl. lia.
  - lia.
Defined.

(** X21.  [ncontrib_cmp] is a comparator as [std::sort] requires it, a
    strict weak ordering: no cluster comes before itself, coming before
    is transitive, and so is being tied. *)
Theorem ncontrib_cmp_strict_weak_order :
  (forall x, ncontrib_cmp x x = false) /\
  (forall x y z, ncontrib_cmp x y = true -> ncontrib_cmp y z = true ->
                 ncontrib_cmp x z = true) /\
  (forall x y z,
     ncontrib_cmp x y = false -> ncontrib_cmp y x = false ->
     ncontrib_cmp y z = false -> ncontrib_cmp z y = false ->
     ncontrib_cmp x z = false /\ ncontrib_cmp z x = false).
Proof.
  unfold ncontrib_cmp. split; [|split].
  - intros x. destruct (Z.gtb_spec (ncontrib x) (ncontrib x)); [lia|reflexivity].
  - intros x y z.
    destruct (Z.gtb_spec (ncontrib x) (ncontrib y)),
      (Z.gtb_spec (ncontrib y) (ncontrib z)),
      (Z.gtb_spec (ncontrib x) (ncontrib z)); intros; try discriminate;
      try reflexivity; lia.
  - intros x y z.
    destruct (Z.gtb_spec (ncontrib x) (ncontrib y)),
      (Z.gtb_spec (ncontrib y) (ncontrib x)),
      (Z.gtb_spec (ncontrib y) (ncontrib z)),
      (Z.gtb_spec (ncontrib z) (ncontrib y)),
      (Z.gtb_spec (ncontrib x) (ncontrib z)),
      (Z.gtb_spec (ncontrib z) (ncontrib x)); intros; try discriminate;
      split; try reflexivity; lia.
Qed.

Lemma ncontrib_cmp_strict_weak_order_witness :
  ncontrib_cmp acg3 ttt = true.
Proof.
  destruct ncontrib_cmp_strict_weak_order as (_ & Htrans & _).
  apply (Htrans acg3 acg2 ttt); reflexivity.
Defined.

(** X22.  The allocation is the last thing [merge_two] looks at: a pair
    turned down for any other reason is turned down for that reason
    whether the allocation would succeed or not. *)
Theorem merge_two_allocation_last xs ys args ok ok' msg :
  merge_two xs ys args ok = Failure msg ->
  msg <> memory_allocation_error ->
  merge_two xs ys args ok' = Failure msg.
Proof.
  unfold merge_two.
  destruct (data xs !! 0) as [x0|]; [|auto].
  destruct (data ys !! 0) as [y0|]; [|auto].
  destruct (_ && _); [auto|].
  destruct (overhang xs ys args x0 y0) as [m|w0]; [auto|].
  destruct (walk xs ys args w0) as [m|w]; [auto|].
  destruct (_ <? _)%Z; [auto|].
  unfold malloc. destruct ok; [discriminate|].
  intros [= <-] Hne. contradiction.
Qed.

Lemma merge_two_allocation_last_witness :
  merge_two acg ttt (strict 1) false = Failure mismatch.
Proof.
  apply (merge_two_allocation_last acg ttt (strict 1) true false mismatch).
  - vm_compute. reflexivity.
  - discriminate.
Defined.

(** ** [merge_clusters] with nothing to merge *)

Lemma supported_perm args l l' : l ≡ₚ l' -> supported args l = supported args l'.
Proof.
  induction 1 as [|a l l' _ IH|a b l|l1 l2 l3 _ IH1 _ IH2]; simpl.
  - reflexivity.
  - rewrite IH. reflexivity.
  - destruct (ncontrib a >=? min_reads args)%Z,
      (ncontrib b >=? min_reads args)%Z; reflexivity.
  - congruence.
Qed.

Section NothingMerges.

Variable merge : nat -> aligned_t -> aligned_t -> res_t * aligned_t.
Context {sorter : Sorter}.
Variable args : args_t.

Lemma scan_no_merge fuel : forall i j s r,
  quiet_from merge i (clusters s) -> i < j ->
  scan merge fuel i j s = Some r ->
  r = Fall (mk_agg (clusters s) (nclusters s) (repeat s)
                   (calls s + (length (clusters s) - j))
                   (merges s) (passes s)).
Proof.
  induction fuel as [|fuel IH]; intros i j s r Hno Hij; simpl; [discriminate|].
  destruct (clusters s !! j) as [b|] eqn:Hb.
  2:{ intros [= <-]. apply lookup_ge_None in Hb.
      replace (length (clusters s) - j) with 0 by lia.
      rewrite Nat.add_0_r. destruct s; reflexivity. }
  pose proof (lookup_lt_Some _ _ _ Hb) as Hj.
  destruct (clusters s !! i) as [a|] eqn:Ha; [|discriminate].
  pose proof (Hno (calls s) i j a b (le_n i) Hij Ha Hb) as Hf.
  destruct (merge (calls s) a b) as [[] m]; simpl in Hf; try discriminate.
  intros Hrun. apply IH in Hrun; [|exact Hno|lia]. rewrite Hrun. simpl.
  do 2 f_equal. lia.
Qed.

Lemma pass_no_merge c0 fuel : forall i s r,
  quiet_from merge i (clusters s) ->
  calls s = c0 + pairs_before (length (clusters s)) i ->
  i <= length (clusters s) ->
  pass merge args fuel i s = Some r ->
  r = Fall (mk_agg (clusters s)
                   (nclusters s + supported args (drop i (clusters s)))
                   (repeat s) (c0 + pairs (length (clusters s)))
                   (merges s) (passes s)).
Proof.
  induction fuel as [|fuel IH]; intros i s r Hno Hc0 Hi; simpl; [discriminate|].
  destruct (clusters s !! i) as [a0|] eqn:Ha0.
  2:{ intros [= <-]. apply lookup_ge_None in Ha0.
      assert (i = length (clusters s)) as Hn by lia.
      rewrite drop_ge by lia. simpl. rewrite Z.add_0_r.
      rewrite Hn in Hc0. unfold pairs. rewrite <- Hc0.
      destruct s; reflexivity. }
  pose proof (lookup_lt_Some _ _ _ Ha0) as Hlt.
  destruct (scan merge fuel i (i + 1) s) as [r1|] eqn:Hscan; [|discriminate].
  rewrite (scan_no_merge _ i (i + 1) _ _ Hno ltac:(lia) Hscan). simpl.
  rewrite Ha0.
  destruct (count_calls args a0
              (mk_agg (clusters s) (nclusters s) (repeat s)
                      (calls s + (length (clusters s) - (i + 1)))
                      (merges s) (passes s))) as [Hcc _].
  intros Hrun. apply IH in Hrun.
  - rewrite Hrun. rewrite (drop_S _ _ _ Ha0), supported_cons, Nat.add_1_r.
    unfold count. destruct (ncontrib a0 >=? min_reads args)%Z; simpl;
      f_equal; f_equal; lia.
  - unfold count. destruct (ncontrib a0 >=? min_reads args)%Z; simpl;
      intros k ia ib a b Hia; apply Hno; lia.
  - rewrite Hcc. simpl.
    replace (clusters (count args a0 _)) with (clusters s)
      by (unfold count; destruct (ncontrib a0 >=? min_reads args)%Z;
          reflexivity).
    rewrite pairs_before_S. lia.
  - replace (clusters (count args a0 _)) with (clusters s)
      by (unfold count; destruct (ncontrib a0 >=? min_reads args)%Z;
          reflexivity).
    lia.
Qed.

Lemma outer_no_merge fuel s v s' :
  quiet_from merge 0 (sort (clusters s)) ->
  outer merge args fuel s = Some (v, s') ->
  v = supported args (clusters s) /\
  s' = mk_agg (sort (clusters s)) v false
              (calls s + pairs (length (clusters s)))
              (merges s) (passes s + 1).
Proof.
  intros Hno. destruct fuel as [|fuel]; simpl; [discriminate|].
  destruct (pass merge args fuel 0 _) as [r|] eqn:Hpass; [|discriminate].
  apply (pass_no_merge (calls s)) in Hpass;
    [|exact Hno|simpl; lia|lia].
  rewrite Hpass. simpl. rewrite drop_0, Z.add_0_l.
  rewrite (Permutation_length (sort_perm (clusters s))).
  intros [= <- <-]. split; [apply supported_perm, sort_perm|reflexivity].
Qed.

(** Two clusters at two positions of a sorted vector stand at two
    positions of the vector given. *)
Lemma sorted_positions cs i j a b :
  i <> j -> sort cs !! i = Some a -> sort cs !! j = Some b ->
  exists i' j', i' <> j' /\ cs !! i' = Some a /\ cs !! j' = Some b.
Proof.
  intros Hne Ha Hb.
  destruct (proj1 (Permutation_inj _ _) (sort_perm cs)) as (_ & f & Hinj & Hf).
  exists (f i), (f j). rewrite <- !Hf. split; [|auto].
  intros Heq. apply Hne, Hinj, Heq.
Qed.

End NothingMerges.

(** X23.  When [merge_two] turns down every pair of two clusters of the
    vector given, in either order, [merge_clusters] makes one pass, in
    which it tries every pair of the sorted vector once, and no merge; it
    leaves the vector as the sort arranged it and returns the number of
    clusters with [min_reads] reads or more. *)
Theorem merge_clusters_nothing_merges `{Sorter} alloc args cs :
  (forall k i j a b,
     i <> j -> cs !! i = Some a -> cs !! j = Some b ->
     exists msg, merge_two a b args (alloc k) = Failure msg) ->
  merge_clusters alloc args (enough (length cs)) cs =
  Some (supported args cs,
        mk_agg (sort cs) (supported args cs) false (pairs (length cs)) 0 1).
Proof.
  intros Hno.
  destruct (merge_clusters_with_returns
              (fun k a b => merge_two_call args a b (alloc k)) args cs)
    as (v & s & _ & Hall).
  specialize (Hall (enough (length cs)) ltac:(lia)).
  unfold merge_clusters. rewrite Hall.
  apply outer_no_merge in Hall.
  - simpl in Hall. destruct Hall as [-> ->]. reflexivity.
  - simpl. intros k ia ib a b _ Hlt Ha Hb.
    destruct (sorted_positions cs ia ib a b ltac:(lia) Ha Hb)
      as (i' & j' & Hne & Ha' & Hb').
    destruct (Hno k i' j' a b Hne Ha' Hb') as [msg Hm].
    unfold merge_two_call. rewrite Hm. reflexivity.
Qed.

Lemma merge_clusters_nothing_merges_witness :
  merge_clusters (fun _ => true) (strict 2) (enough 2) [acg; ttt] =
  Some (supported (strict 2) [acg; ttt],
        mk_agg (sort [acg; ttt]) (supported (strict 2) [acg; ttt])
               false (pairs 2) 0 1).
Proof.
  apply (merge_clusters_nothing_merges (fun _ => true) (strict 2) [acg; ttt]).
  intros k [|[|i]] [|[|j]] a b Hne; simpl; try discriminate; try congruence;
    intros [= <-] [= <-]; eexists; vm_compute; reflexivity.
Defined.

(** X24.  A vector of no cluster or of one cluster: [merge_clusters]
    never calls [merge_two], leaves the vector as it is, and returns 0
    or, for one cluster with [min_reads] reads or more, 1. *)
Theorem merge_clusters_short `{Sorter} alloc args fuel cs :
  length cs <= 1 -> 3 <= fuel ->
  merge_clusters alloc args fuel cs =
  Some (supported args cs, mk_agg cs (supported args cs) false 0 0 1).
Proof.
  intros Hlen Hfuel. destruct fuel as [|[|[|fuel]]]; try lia.
  unfold merge_clusters, merge_clusters_with.
  pose proof (sort_perm cs) as Hp.
  destruct cs as [|a [|b cs]]; simpl in Hlen; try lia.
  - apply Permutation_nil_r in Hp. simpl. rewrite Hp. reflexivity.
  - apply Permutation_singleton_r in Hp. simpl. rewrite Hp. simpl.
    unfold count. simpl.
    destruct (ncontrib a >=? min_reads args)%Z; reflexivity.
Qed.

Lemma merge_clusters_short_witness :
  merge_clusters (fun _ => true) (strict 1) 3 [acg] =
  Some (supported (strict 1) [acg],
        mk_agg [acg] (supported (strict 1) [acg]) false 0 0 1).
Proof.
  apply (merge_clusters_short (fun _ => true) (strict 1) 3 [acg]); simpl; lia.
Defined.

(** ** [merge_two]: the records it combines *)

Lemma combined_pairs_nil_r l : combined_pairs l [] = [].
Proof. destruct l; reflexivity. Qed.

Lemma combined_pairs_cons x xs y ys :
  combined_pairs (x :: xs) (y :: ys) =
  match pos_cmp x y with
  | LT => combined_pairs xs (y :: ys)
  | GT => combined_pairs (x :: xs) ys
  | EQ => (x, y) :: combined_pairs xs ys
  end.
Proof. reflexivity. Qed.

Lemma combined_pairs_in xs : forall ys x y,
  (x, y) ∈ combined_pairs xs ys -> x ∈ xs /\ y ∈ ys /\ pos_cmp x y = EQ.
Proof.
  induction xs as [|x0 xs IHx]; intros ys; [intros x y H; inversion H|].
  induction ys as [|y0 ys IHy]; intros x y; [intros H; inversion H|].
  rewrite combined_pairs_cons. destruct (pos_cmp x0 y0) eqn:Hcmp; intros H.
  - destruct (IHx _ _ _ H) as (? & ? & ?). repeat split; auto. right; auto.
  - destruct (IHy _ _ H) as (? & ? & ?). repeat split; auto. right; auto.
  - apply elem_of_cons in H as [[= -> ->] | H].
    + repeat split; auto; left.
    + destruct (IHx _ _ _ H) as (? & ? & ?). repeat split; auto; right; auto.
Qed.

Lemma merged_records_pairs xs : forall ys r,
  r ∈ merged_records xs ys ->
  r ∈ xs \/ r ∈ ys \/
  exists x y, (x, y) ∈ combined_pairs xs ys /\ r = combine x y.
Proof.
  induction xs as [|x0 xs IHx]; intros ys; [simpl; auto|].
  induction ys as [|y0 ys IHy]; intros r; [simpl; auto|].
  rewrite merged_records_cons, combined_pairs_cons.
  destruct (pos_cmp x0 y0) eqn:Hcmp; intros H;
    apply elem_of_cons in H as [-> | H].
  - left. left.
  - destruct (IHx _ _ H) as [? | [? | ?]]; auto. left. right. assumption.
  - right. left. left.
  - destruct (IHy _ H) as [? | [? | ?]]; auto. right. left. right. assumption.
  - right. right. exists x0, y0. split; [left|reflexivity].
  - destruct (IHx _ _ H) as [? | [? | (x & y & ? & ?)]].
    + left. right. assumption.
    + right. left. right. assumption.
    + right. right. exists x, y. split; [right|]; assumption.
Qed.

Section Pairs.

Variables xs ys : aligned_t.
Variable args : args_t.

(** The walk counts the pairs the construction will combine, and has
    found each of them compatible. *)
Lemma walk_pairs w w' :
  walk xs ys args w = inr w' ->
  overlap w' =
    overlap w +
    length (combined_pairs (drop (xidx w) (data xs)) (drop (yidx w) (data ys))) /\
  forall x y,
    (x, y) ∈ combined_pairs (drop (xidx w) (data xs)) (drop (yidx w) (data ys)) ->
    compatible args x y = true.
Proof.
  induction w as [w IH] using (walk_induction xs ys args).
  rewrite walk_eq. unfold walk_step in *.
  destruct (data xs !! xidx w) as [x|] eqn:Hx.
  2:{ intros [= <-]. apply lookup_ge_None in Hx. rewrite (drop_ge (data xs)) by lia.
      simpl. split; [lia|]. intros x y H. inversion H. }
  destruct (data ys !! yidx w) as [y|] eqn:Hy.
  2:{ intros [= <-]. apply lookup_ge_None in Hy. rewrite (drop_ge (data ys)) by lia.
      rewrite combined_pairs_nil_r. simpl. split; [lia|].
      intros x' y' H. inversion H. }
  rewrite (drop_S _ _ _ Hx), (drop_S _ _ _ Hy), combined_pairs_cons.
  destruct (pos_cmp x y) eqn:Hcmp.
  - destruct (negb (tol_gaps args)); [discriminate|]. intros Hw.
    apply (IH _ eq_refl) in Hw. simpl in Hw.
    rewrite Nat.add_1_r, (drop_S _ _ _ Hy) in Hw. exact Hw.
  - destruct (negb (tol_gaps args)); [discriminate|]. intros Hw.
    apply (IH _ eq_refl) in Hw. simpl in Hw.
    rewrite Nat.add_1_r, (drop_S _ _ _ Hx) in Hw. exact Hw.
  - destruct (compatible args x y) eqn:Hc; [|discriminate]. intros Hw.
    apply (IH _ eq_refl) in Hw. simpl in Hw. rewrite !Nat.add_1_r in Hw.
    destruct Hw as [Ho Hall]. split; [simpl; lia|].
    intros x' y' H. apply elem_of_cons in H as [[= -> ->] | H]; auto.
Qed.

Lemma skip_xs_pairs y0 ys' n : forall i x cmp cmp' i',
  len xs - i <= n ->
  data xs !! i = Some x -> cmp = pos_cmp x y0 ->
  skip_xs xs y0 cmp i = (cmp', i') ->
  combined_pairs (drop i (data xs)) (y0 :: ys') =
  combined_pairs (drop i' (data xs)) (y0 :: ys').
Proof.
  induction n as [|n IH]; intros i x cmp cmp' i' Hn Hx Hcmp.
  { apply lookup_lt_Some in Hx. unfold len in Hn. lia. }
  rewrite skip_xs_eq.
  destruct cmp; try (intros [= <- <-]; reflexivity).
  destruct (data xs !! (i + 1)) as [x1|] eqn:Hx1;
    [|intros [= <- <-]; reflexivity].
  intros Hskip.
  rewrite (drop_S _ _ _ Hx), combined_pairs_cons, <- Hcmp.
  rewrite <- Nat.add_1_r.
  apply (IH (i + 1) x1 (pos_cmp x1 y0) cmp' i'); auto.
  apply lookup_lt_Some in Hx1. unfold len in *. lia.
Qed.

Lemma skip_ys_pairs x0 xs' n : forall j y cmp cmp' j',
  len ys - j <= n ->
  data ys !! j = Some y -> cmp = pos_cmp x0 y ->
  skip_ys ys x0 cmp j = (cmp', j') ->
  combined_pairs (x0 :: xs') (drop j (data ys)) =
  combined_pairs (x0 :: xs') (drop j' (data ys)).
Proof.
  induction n as [|n IH]; intros j y cmp cmp' j' Hn Hy Hcmp.
  { apply lookup_lt_Some in Hy. unfold len in Hn. lia. }
  rewrite skip_ys_eq.
  destruct cmp; try (intros [= <- <-]; reflexivity).
  destruct (data ys !! (j + 1)) as [y1|] eqn:Hy1;
    [|intros [= <- <-]; reflexivity].
  intros Hskip.
  rewrite (drop_S _ _ _ Hy), combined_pairs_cons, <- Hcmp.
  rewrite <- Nat.add_1_r.
  apply (IH (j + 1) y1 (pos_cmp x0 y1) cmp' j'); auto.
  apply lookup_lt_Some in Hy1. unfold len in *. lia.
Qed.

Lemma overhang_pairs x0 y0 w0 :
  data xs !! 0 = Some x0 -> data ys !! 0 = Some y0 ->
  overhang xs ys args x0 y0 = inr w0 ->
  combined_pairs (data xs) (data ys) =
  combined_pairs (drop (xidx w0) (data xs)) (drop (yidx w0) (data ys)).
Proof.
  intros Hx Hy. unfold overhang.
  destruct (data xs) as [|x0' xs'] eqn:Ex; [discriminate|].
  destruct (data ys) as [|y0' ys'] eqn:Ey; [discriminate|].
  injection Hx as ->. injection Hy as ->.
  destruct (pos_cmp x0 y0) eqn:Hcmp.
  - destruct (skip_xs xs y0 LT 0) as [cmp i] eqn:Hskip.
    pose proof (skip_xs_pairs y0 ys' (len xs) 0 x0 LT cmp i ltac:(lia)) as Hp.
    rewrite Ex in Hp. specialize (Hp eq_refl (eq_sym Hcmp) Hskip).
    intros Hw.
    assert (w0 = mk_walk 0 i 0 (0 + i)) as ->.
    { destruct cmp; [| destruct (negb (tol_gaps args)) |]; congruence. }
    exact Hp.
  - destruct (skip_ys ys x0 GT 0) as [cmp j] eqn:Hskip.
    pose proof (skip_ys_pairs x0 xs' (len ys) 0 y0 GT cmp j ltac:(lia)) as Hp.
    rewrite Ey in Hp. specialize (Hp eq_refl (eq_sym Hcmp) Hskip).
    intros Hw.
    assert (w0 = mk_walk 0 0 j (0 + j)) as ->.
    { destruct cmp; [| destruct (negb (tol_gaps args)) |]; congruence. }
    exact Hp.
  - intros [= <-]. reflexivity.
Qed.

End Pairs.

(** On [SUCCESS]: the overlap is the number of pairs combined, and each
    of them was found compatible. *)
Lemma merge_two_pairs xs ys args alloc_ok m t :
  merge_two xs ys args alloc_ok = Success m t ->
  t_overlap t = length (combined_pairs (data xs) (data ys)) /\
  forall x y, (x, y) ∈ combined_pairs (data xs) (data ys) ->
              compatible args x y = true.
Proof.
  intros H. apply merge_two_Success in H.
  destruct H as (x0 & y0 & w0 & w & Hx & Hy & _ & Hov & Hw & _ & _ & _ & ->).
  simpl. rewrite (overhang_pairs xs ys args x0 y0 w0 Hx Hy Hov).
  destruct (walk_pairs xs ys args w0 w Hw) as [Ho Hall].
  rewrite (overhang_overlap _ _ _ _ _ _ Hov) in Ho. split; [exact Ho|exact Hall].
Qed.

(** X8.  On [SUCCESS] no position of [xs] is lost, and nothing is
    invented: every record of [xs] has a record of the same position in
    the merged cluster, and every record of the merged cluster is a
    record of [xs], a record of [ys], or the combination of a record of
    [xs] and a record of [ys] that compare [EQ] and carry compatible
    codes. *)
Theorem merge_two_positions xs ys args alloc_ok m t :
  merge_two xs ys args alloc_ok = Success m t ->
  (forall x, x ∈ data xs -> exists r, r ∈ data m /\ same_key r x) /\
  (forall r, r ∈ data m ->
     r ∈ data xs \/ r ∈ data ys \/
     exists x y, x ∈ data xs /\ y ∈ data ys /\ pos_cmp x y = EQ /\
                 compatible args x y = true /\ r = combine x y).
Proof.
  intros H. destruct (merge_two_pairs _ _ _ _ _ _ H) as [_ Hc].
  rewrite (merge_two_data _ _ _ _ _ _ H). split.
  - intros x. apply merged_records_keeps_xs.
  - intros r Hr.
    destruct (merged_records_pairs _ _ _ Hr) as [? | [? | (x & y & Hp & ->)]];
      auto.
    right. right. exists x, y.
    destruct (combined_pairs_in _ _ _ _ Hp) as (Hx & Hy & Hcmp).
    repeat split; auto.
Qed.

Lemma merge_two_positions_witness :
  exists r, r ∈ data acg2 /\ same_key r (mk_pos 11 0 1 2).
Proof.
  apply (proj1 (merge_two_positions acg acg (strict 2) true acg2
                  (mk_trace 3 3 3 false) ltac:(vm_compute; reflexivity))).
  right. left.
Defined.

(** X25.  On [SUCCESS] the overlap counted by the first pass is the
    number of pairs of records the second pass combines, and the first
    pass has found the codes of each of these pairs compatible. *)
Theorem merge_two_overlap_combined xs ys args alloc_ok m t :
  merge_two xs ys args alloc_ok = Success m t ->
  t_overlap t = length (combined_pairs (data xs) (data ys)) /\
  Forall (fun p => compatible args p.1 p.2 = true)
         (combined_pairs (data xs) (data ys)).
Proof.
  intros H. destruct (merge_two_pairs _ _ _ _ _ _ H) as [Ho Hc].
  split; [exact Ho|].
  apply Forall_forall. intros [x y] Hp. simpl. apply Hc. exact Hp.
Qed.

Lemma merge_two_overlap_combined_witness :
  t_overlap (mk_trace 1 3 3 false) =
    length (combined_pairs (data with_ins) (data from_ins)) /\
  Forall (fun p => compatible (strict 1) p.1 p.2 = true)
         (combined_pairs (data with_ins) (data from_ins)).
Proof.
  apply (merge_two_overlap_combined with_ins from_ins (strict 1) true
           (mk_aligned [mk_pos 4 0 10 1; mk_pos 5 0 21 1; mk_pos 5 1 30 1]
                       4 5 2) (mk_trace 1 3 3 false)).
  vm_compute. reflexivity.
Defined.

(** X26.  Without [tol_ambigs] a merge changes no code: every record of
    the merged cluster is a record of [xs], a record of [ys], or a
    record of [xs] whose code a record of [ys] shares, with the coverage
    of that record added. *)
Theorem merge_two_keeps_codes xs ys args alloc_ok m t :
  tol_ambigs args = false ->
  merge_two xs ys args alloc_ok = Success m t ->
  forall r, r ∈ data m ->
    r ∈ data xs \/ r ∈ data ys \/
    exists x y, x ∈ data xs /\ y ∈ data ys /\ nuc x = nuc y /\
                r = mk_pos (col x) (ins x) (cov x + cov y) (nuc x).
Proof.
  intros Htol H r Hr. destruct (merge_two_pairs _ _ _ _ _ _ H) as [_ Hc].
  rewrite (merge_two_data _ _ _ _ _ _ H) in Hr.
  destruct (merged_records_pairs _ _ _ Hr) as [? | [? | (x & y & Hp & ->)]];
    auto.
  right. right. exists x, y.
  destruct (combined_pairs_in _ _ _ _ Hp) as (Hx & Hy & _).
  specialize (Hc x y Hp). apply compatible_spec in Hc.
  destruct Hc as [Hn | [Hamb _]]; [|congruence].
  repeat split; auto.
  unfold combine, MIN. rewrite Hn, Z.ltb_irrefl. reflexivity.
Qed.

Lemma merge_two_keeps_codes_witness :
  mk_pos 11 0 2 2 ∈ data acg \/ mk_pos 11 0 2 2 ∈ data acg \/
  exists x y, x ∈ data acg /\ y ∈ data acg /\ nuc x = nuc y /\
              mk_pos 11 0 2 2 = mk_pos (col x) (ins x) (cov x + cov y) (nuc x).
Proof.
  apply (merge_two_keeps_codes acg acg (strict 2) true acg2
           (mk_trace 3 3 3 false)).
  - reflexivity.
  - vm_compute. reflexivity.
  - right. left.
Defined.

(** X27.  [merge_two] keeps the records valid: when every record of both
    inputs has a code between 1 and 15 and a coverage of at least 1, so
    has every record of the merged cluster. *)
Theorem merge_two_valid_records xs ys args alloc_ok m t :
  Forall valid_record (data xs) -> Forall valid_record (data ys) ->
  merge_two xs ys args alloc_ok = Success m t ->
  Forall valid_record (data m).
Proof.
  intros Hx Hy H. rewrite (merge_two_data _ _ _ _ _ _ H).
  apply merged_records_Forall; [|exact Hx|exact Hy].
  unfold valid_record, combine, MIN. simpl. intros x y [Hnx Hcx] [Hny Hcy] _.
  destruct (nuc x <? nuc y)%Z; lia.
Qed.

Lemma merge_two_valid_records_witness :
  Forall valid_record (data acg2).
Proof.
  apply (merge_two_valid_records acg acg (strict 2) true acg2
           (mk_trace 3 3 3 false)).
  - repeat (apply List.Forall_cons; [unfold valid_record; simpl; lia|]).
    apply List.Forall_nil.
  - repeat (apply List.Forall_cons; [unfold valid_record; simpl; lia|]).
    apply List.Forall_nil.
  - vm_compute. reflexivity.
Defined.
